(** * ServiceStation.cpp: counting semaphore, bounded blocking queue,
      pump and car threads

    A shallow embedding of [src/ServiceStation.cpp].  Every method of
    [Semaphore] holds the private [std::mutex mtx] for its whole body, so
    a method is one atomic step here.  Threads are modelled by program
    counters that name the source statement a thread executes next, and a
    schedule picks which thread takes the next step. *)

From stdpp Require Import base numbers list strings pretty.

Local Open Scope Z_scope.

(** ** Machine integers

    [int slots] is a 32-bit signed integer.  [slots++] and [slots--] are
    written with the two's complement wrap-around of the target machines
    (the C++ standard leaves signed overflow undefined).  Where a theorem
    takes a capacity or a bay count, [<= INT_MAX] says that it is an
    [int]. *)

Definition INT_MAX : Z := 2147483647.
Definition INT_MIN : Z := -2147483648.

Definition int_wrap (z : Z) : Z := (z + 2 ^ 31) `mod` 2 ^ 32 - 2 ^ 31.

(** ** Results of a call

    A call returns, makes its caller wait (the predicate of
    [cv.wait(lock, pred)] is false), or throws. *)

Inductive exn : Type :=
| invalid_argument (what : string).

Inductive outcome (A : Type) : Type :=
| Returns (a : A)
| Waits
| Throws (e : exn).

Arguments Returns {A} a.
Arguments Waits {A}.
Arguments Throws {A} e.

Definition obind {A B : Type} (x : outcome A) (k : A -> outcome B) : outcome B :=
  match x with
  | Returns a => k a
  | Waits => Waits
  | Throws e => Throws e
  end.

Notation "'call' x ':=' c1 'in' c2" := (obind c1 (fun x => c2))
  (at level 10, x name, c1 at level 100, c2 at level 200).

(** ** struct Car *)

Record Car : Type := mkCar { carName : string; carId : Z }.

(** ** class Semaphore *)

Record Semaphore : Type := mkSemaphore { slots : Z }.

(** [Semaphore(int initialSlots)], lines 42-46. *)
Definition Semaphore_new (initialSlots : Z) : outcome Semaphore :=
  if initialSlots <? 0
  then Throws (invalid_argument "Initial slots cannot be negative")
  else Returns (mkSemaphore initialSlots).

(** [acquire()], lines 48-53.  One evaluation of the wait predicate
    [slots > 0] with [mtx] held: on entry, and again after every wake-up
    of [cv.wait], notified or spurious.  When it is false the caller
    waits and the semaphore is unchanged; when it is true [slots--]. *)
Definition acquire (s : Semaphore) : outcome Semaphore :=
  if 0 <? slots s
  then Returns (mkSemaphore (int_wrap (slots s - 1)))
  else Waits.

(** [release()], lines 55-59: [slots++; cv.notify_one()]. *)
Definition release (s : Semaphore) : outcome Semaphore :=
  Returns (mkSemaphore (int_wrap (slots s + 1))).

(** [availablePermits()], lines 61-64: the value read and the semaphore
    after the call. *)
Definition availablePermits (s : Semaphore) : outcome (Z * Semaphore) :=
  Returns (slots s, s).

(** A sequence of calls on one semaphore, issued by any threads.  A call
    of [acquire] that has to wait leaves the semaphore to the next call;
    the waiting thread's next evaluation of the predicate is a later
    [OpAcquire]. *)
Inductive sem_op : Type := OpAcquire | OpRelease.

Definition sem_call (op : sem_op) (s : Semaphore) : outcome Semaphore :=
  match op with
  | OpAcquire => acquire s
  | OpRelease => release s
  end.

Definition sem_after (s : Semaphore) (r : outcome Semaphore) : Semaphore :=
  match r with
  | Returns s' => s'
  | _ => s
  end.

(** The calls of a sequence, each with the semaphore it found and its
    result. *)
Fixpoint sem_history (s : Semaphore) (ops : list sem_op)
  : list (Semaphore * sem_op * outcome Semaphore) :=
  match ops with
  | [] => []
  | op :: ops' =>
      (s, op, sem_call op s) :: sem_history (sem_after s (sem_call op s)) ops'
  end.

Fixpoint sem_run (s : Semaphore) (ops : list sem_op) : Semaphore :=
  match ops with
  | [] => s
  | op :: ops' => sem_run (sem_after s (sem_call op s)) ops'
  end.

(** What the specification asks of one call. *)
Definition sem_call_ok (c : Semaphore * sem_op * outcome Semaphore) : Prop :=
  match c with
  | (pre, OpAcquire, Returns post) => 0 < slots pre /\ slots post = slots pre - 1
  | (pre, OpAcquire, Waits) => slots pre = 0
  | (pre, OpRelease, Returns post) => slots post = slots pre + 1
  | _ => False
  end.

(** The permit count is below [INT_MAX] whenever [release] is called. *)
Definition release_in_range (c : Semaphore * sem_op * outcome Semaphore) : Prop :=
  match c with
  | (pre, OpRelease, _) => slots pre < INT_MAX
  | _ => True
  end.

(** ** class SharedQueue *)

Record SharedQueue : Type := mkSharedQueue {
  queue : list Car;
  empty : Semaphore;
  full : Semaphore;
  mutex : Semaphore
}.

(** [SharedQueue(int capacity) : empty(capacity), full(0), mutex(1) {}],
    lines 76-77.  The members are built in declaration order. *)
Definition SharedQueue_new (capacity : Z) : outcome SharedQueue :=
  call e := Semaphore_new capacity in
  call f := Semaphore_new 0 in
  call m := Semaphore_new 1 in
  Returns (mkSharedQueue [] e f m).

Definition with_queue (l : list Car) (q : SharedQueue) : SharedQueue :=
  mkSharedQueue l (empty q) (full q) (mutex q).
Definition with_empty (s : Semaphore) (q : SharedQueue) : SharedQueue :=
  mkSharedQueue (queue q) s (full q) (mutex q).
Definition with_full (s : Semaphore) (q : SharedQueue) : SharedQueue :=
  mkSharedQueue (queue q) (empty q) s (mutex q).
Definition with_mutex (s : Semaphore) (q : SharedQueue) : SharedQueue :=
  mkSharedQueue (queue q) (empty q) (full q) s.

(** [getWaitingCarCount()], lines 121-124. *)
Definition getWaitingCarCount (q : SharedQueue) : outcome (Z * SharedQueue) :=
  call r := availablePermits (full q) in
  Returns (r.1, with_full r.2 q).

(** The input loop of [main], lines 168-171, on the values of the
    extractions that succeed: the first value read that is in 1..10
    becomes [queueSize].  The stream with its failbit is [input_loop]
    below. *)
Fixpoint read_queueSize (input : list Z) : option Z :=
  match input with
  | [] => None
  | queueSize :: rest =>
      if (queueSize <? 1) || (queueSize >? 10)
      then read_queueSize rest
      else Some queueSize
  end.

(** ** Threads

    What a thread does in one step is recorded as an [action]; the
    messages handed to [safe_print] are [event]s. *)

Inductive sem_id : Type := SEmpty | SFull | SMutex | SPumps.

(** The messages, by the values they are built from:
    - [Arrived]: line 157, "<name> arrived";
    - [Queued]: line 88, "<name> entered the waiting queue. (Queue size: <size>)";
    - [Dequeued]: line 109, "Pump <pumpId>: <name> taken from queue. (Queue size: <size>)";
    - [ServiceStarted]: line 139, "Pump <pumpId>: <name> begins service at Bay <bay>";
    - [ServiceFinished]: line 144, "Pump <pumpId>: <name> finishes service";
    - [BayFreed]: line 145, "Pump <pumpId>: Bay <bay> is now free";
    - [Interrupted]: line 151, "Pump <pumpId> interrupted.". *)
Inductive event : Type :=
| Arrived (name : string)
| Queued (name : string) (size : nat)
| Dequeued (pumpId : Z) (name : string) (size : nat)
| ServiceStarted (pumpId : Z) (name : string) (bay : Z)
| ServiceFinished (pumpId : Z) (name : string)
| BayFreed (pumpId : Z) (bay : Z)
| Interrupted (pumpId : Z).

Inductive action : Type :=
| AAcquire (s : sem_id)
| ARelease (s : sem_id)
| APush (car : Car)
| AFront (car : Car)
| APop (car : Car)
| APrint (e : event)
| AReturn (car : Car)
| ASleep
| ARaise
| AUndefined.

(** The result of a call that has returned; a thread whose call waits
    does not move. *)
Definition completed {A : Type} (r : outcome A) : option A :=
  match r with
  | Returns a => Some a
  | _ => None
  end.

(** The statements of [addCar], lines 81-95. *)
Inductive add_pc : Type :=
| A_empty_acquire
| A_mutex_acquire
| A_push
| A_print
| A_mutex_release
| A_full_release.

(** One statement of [addCar(car)]: the action, the queue afterwards and
    the next statement ([None]: the call has returned).  No result means
    the thread cannot move now: it waits in [acquire]. *)
Definition addCar_step (car : Car) (pc : add_pc) (q : SharedQueue)
  : option (action * SharedQueue * option add_pc) :=
  match pc with
  | A_empty_acquire =>
      s ← completed (acquire (empty q));
      Some (AAcquire SEmpty, with_empty s q, Some A_mutex_acquire)
  | A_mutex_acquire =>
      s ← completed (acquire (mutex q));
      Some (AAcquire SMutex, with_mutex s q, Some A_push)
  | A_push =>
      Some (APush car, with_queue (queue q ++ [car]) q, Some A_print)
  | A_print =>
      Some (APrint (Queued (carName car) (length (queue q))), q,
            Some A_mutex_release)
  | A_mutex_release =>
      s ← completed (release (mutex q));
      Some (ARelease SMutex, with_mutex s q, Some A_full_release)
  | A_full_release =>
      s ← completed (release (full q));
      Some (ARelease SFull, with_full s q, None)
  end.

(** The statements of [removeCar], lines 100-118; from line 106 on the
    local [car] is set.  [front()] and [pop()] on an empty [std::queue]
    are undefined: the thread is then at [R_undefined] for good. *)
Inductive rem_pc : Type :=
| R_full_acquire
| R_mutex_acquire
| R_front
| R_pop (car : Car)
| R_print (car : Car)
| R_mutex_release (car : Car)
| R_empty_release (car : Car)
| R_return (car : Car)
| R_undefined.

Definition removeCar_step (pumpId : Z) (pc : rem_pc) (q : SharedQueue)
  : option (action * SharedQueue * (rem_pc + Car)) :=
  match pc with
  | R_full_acquire =>
      s ← completed (acquire (full q));
      Some (AAcquire SFull, with_full s q, inl R_mutex_acquire)
  | R_mutex_acquire =>
      s ← completed (acquire (mutex q));
      Some (AAcquire SMutex, with_mutex s q, inl R_front)
  | R_front =>
      match queue q with
      | car :: _ => Some (AFront car, q, inl (R_pop car))
      | [] => Some (AUndefined, q, inl R_undefined)
      end
  | R_pop car =>
      match queue q with
      | first :: rest => Some (APop first, with_queue rest q, inl (R_print car))
      | [] => Some (AUndefined, q, inl R_undefined)
      end
  | R_print car =>
      Some (APrint (Dequeued pumpId (carName car) (length (queue q))), q,
            inl (R_mutex_release car))
  | R_mutex_release car =>
      s ← completed (release (mutex q));
      Some (ARelease SMutex, with_mutex s q, inl (R_empty_release car))
  | R_empty_release car =>
      s ← completed (release (empty q));
      Some (ARelease SEmpty, with_empty s q, inl (R_return car))
  | R_return car =>
      Some (AReturn car, q, inr car)
  | R_undefined => None
  end.

(** [car_routine], lines 156-159.  A producer runs [car_routine] for
    each client of its list, in order; [main] starts one thread per car,
    that is, producers with one client each. *)
Inductive car_pc : Type :=
| C_arrived
| C_addCar (car : Car) (pc : add_pc).

(** [pump_routine], lines 128-153. *)
Inductive pump_pc : Type :=
| P_removeCar (pc : rem_pc)
| P_pumps_acquire (car : Car)
| P_print_begin (car : Car)
| P_sleep (car : Car)
| P_print_finish (car : Car)
| P_print_free (car : Car)
| P_pumps_release (car : Car)
| P_catch
| P_exit.

Inductive thread : Type :=
| Producer (todo : list Car) (pc : car_pc)
| Pump (pumpId : Z) (pc : pump_pc).

(** One statement of a thread.  [raises] tells whether the simulated
    service step at line 142 raises; it is read nowhere else. *)
Definition thread_step (raises : bool) (t : thread) (q : SharedQueue)
  (pumps : Semaphore) : option (action * thread * SharedQueue * Semaphore) :=
  match t with
  | Producer todo C_arrived =>
      match todo with
      | [] => None
      | car :: rest =>
          Some (APrint (Arrived (carName car)),
                Producer rest (C_addCar car A_empty_acquire), q, pumps)
      end
  | Producer todo (C_addCar car pc) =>
      match addCar_step car pc q with
      | Some (a, q', Some pc') => Some (a, Producer todo (C_addCar car pc'), q', pumps)
      | Some (a, q', None) => Some (a, Producer todo C_arrived, q', pumps)
      | None => None
      end
  | Pump pumpId (P_removeCar pc) =>
      match removeCar_step pumpId pc q with
      | Some (a, q', inl pc') => Some (a, Pump pumpId (P_removeCar pc'), q', pumps)
      | Some (a, q', inr car) => Some (a, Pump pumpId (P_pumps_acquire car), q', pumps)
      | None => None
      end
  | Pump pumpId (P_pumps_acquire car) =>
      s ← completed (acquire pumps);
      Some (AAcquire SPumps, Pump pumpId (P_print_begin car), q, s)
  | Pump pumpId (P_print_begin car) =>
      Some (APrint (ServiceStarted pumpId (carName car) pumpId),
            Pump pumpId (P_sleep car), q, pumps)
  | Pump pumpId (P_sleep car) =>
      if raises
      then Some (ARaise, Pump pumpId P_catch, q, pumps)
      else Some (ASleep, Pump pumpId (P_print_finish car), q, pumps)
  | Pump pumpId (P_print_finish car) =>
      Some (APrint (ServiceFinished pumpId (carName car)),
            Pump pumpId (P_print_free car), q, pumps)
  | Pump pumpId (P_print_free car) =>
      Some (APrint (BayFreed pumpId pumpId),
            Pump pumpId (P_pumps_release car), q, pumps)
  | Pump pumpId (P_pumps_release car) =>
      s ← completed (release pumps);
      Some (ARelease SPumps, Pump pumpId (P_removeCar R_full_acquire), q, s)
  | Pump pumpId P_catch =>
      Some (APrint (Interrupted pumpId), Pump pumpId P_exit, q, pumps)
  | Pump pumpId P_exit => None
  end.

(** ** The station: shared objects, threads and what has happened

    [squeue] and [pumps] are the objects [queue] and [pumps] of [main];
    [trace] lists every step taken so far with the thread that took it.
    The program does not read it. *)

Record Station : Type := mkStation {
  squeue : SharedQueue;
  pumps : Semaphore;
  threads : list thread;
  trace : list (nat * action)
}.

(** Thread [tid] takes one step; [trace] records it. *)
Definition step (W : Station) (tid : nat) (raises : bool) : option Station :=
  match threads W !! tid with
  | Some t =>
      match thread_step raises t (squeue W) (pumps W) with
      | Some (a, t', q', p') =>
          Some (mkStation q' p' (<[tid := t']> (threads W))
                  (trace W ++ [(tid, a)]))
      | None => None
      end
  | None => None
  end.

(** The threads step in the order of a schedule; a schedule that asks a
    waiting or finished thread to step is not a run. *)
Fixpoint run (sched : list (nat * bool)) (W : Station) : option Station :=
  match sched with
  | [] => Some W
  | (tid, raises) :: rest =>
      match step W tid raises with
      | Some W' => run rest W'
      | None => None
      end
  end.

(** A thread that has not started. *)
Definition fresh (t : thread) : bool :=
  match t with
  | Producer _ C_arrived => true
  | Pump _ (P_removeCar R_full_acquire) => true
  | _ => false
  end.

Definition start (q : SharedQueue) (p : Semaphore) (ths : list thread) : Station :=
  mkStation q p ths [].

(** ** Counting threads by where they are

    Each function gives 1 for the threads it counts and 0 for the
    others; [tsum] adds a function up over all threads. *)

Definition tsum (f : thread -> Z) (l : list thread) : Z :=
  foldr (fun t acc => f t + acc) 0 l.

(** Took a permit of [empty] and has not yet released [full]. *)
Definition holds_empty (t : thread) : Z :=
  match t with
  | Producer _ (C_addCar _ A_empty_acquire) => 0
  | Producer _ (C_addCar _ _) => 1
  | _ => 0
  end.

(** Took a permit of [full] and has not yet released [empty]. *)
Definition holds_full (t : thread) : Z :=
  match t with
  | Pump _ (P_removeCar R_full_acquire) => 0
  | Pump _ (P_removeCar (R_return _)) => 0
  | Pump _ (P_removeCar _) => 1
  | _ => 0
  end.

(** Between [mutex.acquire()] and [mutex.release()]: steps (b)-(d). *)
Definition in_crit (t : thread) : Z :=
  match t with
  | Producer _ (C_addCar _ (A_push | A_print | A_mutex_release)) => 1
  | Pump _ (P_removeCar (R_front | R_pop _ | R_print _ | R_mutex_release _
                         | R_undefined)) => 1
  | _ => 0
  end.

(** Pushed its car and has not yet released [full]. *)
Definition pushed_unsignalled (t : thread) : Z :=
  match t with
  | Producer _ (C_addCar _ (A_print | A_mutex_release | A_full_release)) => 1
  | _ => 0
  end.

(** Took a permit of [full] and has not yet popped. *)
Definition taken_unpopped (t : thread) : Z :=
  match t with
  | Pump _ (P_removeCar (R_mutex_acquire | R_front | R_pop _ | R_undefined)) => 1
  | _ => 0
  end.

(** Acquired a bay and has not released it. *)
Definition in_bay (t : thread) : Z :=
  match t with
  | Pump _ (P_print_begin _ | P_sleep _ | P_print_finish _ | P_print_free _
            | P_pumps_release _ | P_catch | P_exit) => 1
  | _ => 0
  end.

(** Ran into [front()] or [pop()] on an empty queue. *)
Definition at_undefined (t : thread) : Z :=
  match t with
  | Pump _ (P_removeCar R_undefined) => 1
  | _ => 0
  end.

(** No thread is between the first [acquire] and the last [release] of
    an [addCar] or [removeCar]. *)
Definition no_call_in_progress (W : Station) : bool :=
  forallb (fun t => (holds_empty t =? 0) && (holds_full t =? 0)) (threads W).

(** No thread is in the critical section, steps (b)-(d). *)
Definition quiescent (W : Station) : bool :=
  forallb (fun t => in_crit t =? 0) (threads W).

Definition size (W : Station) : Z := Z.of_nat (length (queue (squeue W))).

(** ** Invariants of the queue protocol *)

Record queue_inv (N : Z) (W : Station) : Prop := mk_queue_inv {
  qi_mutex : slots (mutex (squeue W)) + tsum in_crit (threads W) = 1;
  qi_mutex0 : 0 <= slots (mutex (squeue W));
  qi_slots :
    slots (empty (squeue W)) + slots (full (squeue W))
    + tsum holds_empty (threads W) + tsum holds_full (threads W) = N;
  qi_empty0 : 0 <= slots (empty (squeue W));
  qi_full0 : 0 <= slots (full (squeue W));
  qi_size :
    size W = slots (full (squeue W)) + tsum pushed_unsignalled (threads W)
             + tsum taken_unpopped (threads W);
  qi_defined : tsum at_undefined (threads W) = 0
}.

Record bay_inv (B : Z) (W : Station) : Prop := mk_bay_inv {
  bi_bays : slots (pumps W) + tsum in_bay (threads W) = B;
  bi_pumps0 : 0 <= slots (pumps W)
}.

(** ** Reading the trace *)

Definition pushed (a : action) : option Car :=
  match a with APush car => Some car | _ => None end.
Definition popped (a : action) : option Car :=
  match a with APop car => Some car | _ => None end.
Definition returned (a : action) : option Car :=
  match a with AReturn car => Some car | _ => None end.
Definition finished (a : action) : option string :=
  match a with APrint (ServiceFinished _ name) => Some name | _ => None end.

(** The cars pushed, popped and returned by [removeCar], and the names
    reported as serviced, each in the order it happened. *)
Definition pushes (tr : list (nat * action)) : list Car :=
  omap (fun x => pushed x.2) tr.
Definition pops (tr : list (nat * action)) : list Car :=
  omap (fun x => popped x.2) tr.
Definition returns (tr : list (nat * action)) : list Car :=
  omap (fun x => returned x.2) tr.
Definition finishes (tr : list (nat * action)) : list string :=
  omap (fun x => finished x.2) tr.

(** How often thread [tid] did an action selected by [sel]. *)
Fixpoint occurrences (sel : action -> bool) (tid : nat)
  (tr : list (nat * action)) : Z :=
  match tr with
  | [] => 0
  | (i, a) :: tr' =>
      (if (i =? tid)%nat && sel a then 1 else 0) + occurrences sel tid tr'
  end.

Definition is_bay_acquire (a : action) : bool :=
  match a with AAcquire SPumps => true | _ => false end.
Definition is_bay_release (a : action) : bool :=
  match a with ARelease SPumps => true | _ => false end.

(** The actions of thread [tid], in order. *)
Definition actions_of (tid : nat) (tr : list (nat * action)) : list action :=
  omap (fun x => if (x.1 =? tid)%nat then Some x.2 else None) tr.

(** ** The steps of one call *)

(** What [addCar(car)] does, in order; [size] is the size printed. *)
Definition addCar_actions (car : Car) (size : nat) : list action :=
  [AAcquire SEmpty; AAcquire SMutex; APush car;
   APrint (Queued (carName car) size); ARelease SMutex; ARelease SFull].

(** What [removeCar(pumpId)] does when it returns [car], in order. *)
Definition removeCar_actions (pumpId : Z) (car : Car) (size : nat)
  : list action :=
  [AAcquire SFull; AAcquire SMutex; AFront car; APop car;
   APrint (Dequeued pumpId (carName car) size); ARelease SMutex;
   ARelease SEmpty; AReturn car].

(** How many statements of [addCar] lie before [pc]. *)
Definition add_index (pc : add_pc) : nat :=
  match pc with
  | A_empty_acquire => 0
  | A_mutex_acquire => 1
  | A_push => 2
  | A_print => 3
  | A_mutex_release => 4
  | A_full_release => 5
  end.

(** What a thread has done of the call it is in; for a pump that waits
    for a bay, the whole [removeCar] it has just returned from. *)
Definition so_far (t : thread) (size : nat) : list action :=
  match t with
  | Producer _ (C_addCar car pc) => take (add_index pc) (addCar_actions car size)
  | Pump pumpId (P_removeCar pc) =>
      match pc with
      | R_full_acquire | R_undefined => []
      | R_mutex_acquire => [AAcquire SFull]
      | R_front => [AAcquire SFull; AAcquire SMutex]
      | R_pop car => take 3 (removeCar_actions pumpId car size)
      | R_print car => take 4 (removeCar_actions pumpId car size)
      | R_mutex_release car => take 5 (removeCar_actions pumpId car size)
      | R_empty_release car => take 6 (removeCar_actions pumpId car size)
      | R_return car => take 7 (removeCar_actions pumpId car size)
      end
  | Pump pumpId (P_pumps_acquire car) => removeCar_actions pumpId car size
  | _ => []
  end.

(** Under any interleaving, the latest actions of a thread are those of
    the call it is in, in the order of the source. *)
Definition call_order_inv (W : Station) : Prop :=
  forall tid t,
    threads W !! tid = Some t ->
    exists earlier size, actions_of tid (trace W) = earlier ++ so_far t size.

(** ** Invariants that relate the threads to the FIFO *)

(** A pump between [front()] and [pop()] has read the car that is still
    first. *)
Definition head_inv (W : Station) : Prop :=
  forall tid pumpId car,
    threads W !! tid = Some (Pump pumpId (P_removeCar (R_pop car))) ->
    exists rest, queue (squeue W) = car :: rest.

Definition fifo_inv (W : Station) : Prop :=
  pushes (trace W) = pops (trace W) ++ queue (squeue W).

(** No step ran into [front()] or [pop()] on an empty FIFO. *)
Definition defined_trace (W : Station) : Prop :=
  Forall (fun x => x.2 <> AUndefined) (trace W).

(** The cars a producer has still to push. *)
Definition to_push (todo : list Car) (pc : car_pc) : list Car :=
  match pc with
  | C_addCar car (A_empty_acquire | A_mutex_acquire | A_push) => car :: todo
  | _ => todo
  end.

(** The car a pump has popped and [removeCar] has not yet returned. *)
Definition in_flight (pc : pump_pc) : list Car :=
  match pc with
  | P_removeCar (R_print car | R_mutex_release car | R_empty_release car
                 | R_return car) => [car]
  | _ => []
  end.

(** One producer that adds [cars] and one pump. *)
Definition spsc_inv (cars : list Car) (W : Station) : Prop :=
  exists todo cpc pumpId ppc,
    threads W = [Producer todo cpc; Pump pumpId ppc] /\
    pushes (trace W) ++ to_push todo cpc = cars /\
    returns (trace W) ++ in_flight ppc = pops (trace W).

(** ** Counting clients *)

(** Cars a thread has still to push. *)
Definition unpushed (t : thread) : Z :=
  match t with
  | Producer todo pc => Z.of_nat (length (to_push todo pc))
  | _ => 0
  end.

(** Popped a car whose service has not been reported as finished. *)
Definition unserved (t : thread) : Z :=
  match t with
  | Pump _ (P_removeCar (R_print _ | R_mutex_release _ | R_empty_release _
                         | R_return _)) => 1
  | Pump _ (P_pumps_acquire _ | P_print_begin _ | P_sleep _ | P_print_finish _
            | P_catch | P_exit) => 1
  | _ => 0
  end.

(** Took a permit of [full] and has not yet acquired a bay. *)
Definition in_transit (t : thread) : Z :=
  match t with
  | Pump _ (P_removeCar R_full_acquire) => 0
  | Pump _ (P_removeCar _) => 1
  | Pump _ (P_pumps_acquire _) => 1
  | _ => 0
  end.

Record count_inv (G : Z) (W : Station) : Prop := mk_count_inv {
  ci_pushes :
    Z.of_nat (length (pushes (trace W))) + tsum unpushed (threads W) = G;
  ci_pops :
    Z.of_nat (length (pops (trace W)))
    = Z.of_nat (length (finishes (trace W))) + tsum unserved (threads W)
}.

(** Every acquire selected by [acq] that a thread did is matched by a
    release selected by [rel] of the same thread, but for the permit the
    thread holds now. *)
Definition paired (acq rel : action -> bool) (holds : thread -> Z)
  (W : Station) : Prop :=
  forall tid t,
    threads W !! tid = Some t ->
    occurrences acq tid (trace W) = occurrences rel tid (trace W) + holds t.

(** ** The drain monitor of [main], lines 208-216 *)

(** All car threads have been joined. *)
Definition arrivals_joined (W : Station) : bool :=
  forallb (fun t => match t with
                    | Producer [] C_arrived => true
                    | Producer _ _ => false
                    | Pump _ _ => true
                    end) (threads W).

(** One sample of the loop: [waiting == 0 && freePumps == pumpCount]. *)
Definition drained (pumpCount : Z) (W : Station) : bool :=
  match getWaitingCarCount (squeue W), availablePermits (pumps W) with
  | Returns (waiting, _), Returns (freePumps, _) =>
      (waiting =? 0) && (freePumps =? pumpCount)
  | _, _ => false
  end.

Definition no_client_in_transit (W : Station) : bool :=
  forallb (fun t => in_transit t =? 0) (threads W).

(** The number of clients handed to the producers of a station. *)
Definition generated (ths : list thread) : Z := tsum unpushed ths.

(** The number of clients reported as serviced. *)
Definition serviced (W : Station) : Z :=
  Z.of_nat (length (finishes (trace W))).

(** ** Concrete stations *)

Definition car1 : Car := mkCar "Car 1" 1.
Definition car2 : Car := mkCar "Car 2" 2.

(** A station of the given capacity and bay count, with the given
    threads, after a schedule. *)
Definition station_after (capacity pumpCount : Z) (ths : list thread)
  (sched : list (nat * bool)) : option Station :=
  match Semaphore_new pumpCount, SharedQueue_new capacity with
  | Returns p, Returns q => run sched (start q p ths)
  | _, _ => None
  end.

Definition solo (tid : nat) (n : nat) : list (nat * bool) :=
  replicate n (tid, false).

(** One car thread and one pump thread, as [main] starts them for
    [pumpCount = 1] and [maxCars = 1]. *)
Definition one_car_one_pump : list thread :=
  [Producer [car1] C_arrived; Pump 1 (P_removeCar R_full_acquire)].

Definition after (W0 : Station) (sched : list (nat * bool)) : Station :=
  default W0 (run sched W0).

(** A queue of capacity 2 and a pool of one bay, as the constructors
    return them. *)
Definition queue2 : SharedQueue :=
  mkSharedQueue [] (mkSemaphore 2) (mkSemaphore 0) (mkSemaphore 1).
Definition pumps1 : Semaphore := mkSemaphore 1.

(** ** The rest of [main] and of the threads' bookkeeping *)

(** The pump threads of [main], lines 185-188: ids 1 to [pumpCount]. *)
Definition pump_threads (pumpCount : Z) : list thread :=
  (fun i => Pump (i + 1) (P_removeCar R_full_acquire)) <$> seqZ 0 pumpCount.

(** The car threads of [main], lines 192-200: ids 1 to [maxCars], named
    "Car <id>". *)
Definition car_threads (maxCars : Z) : list thread :=
  (fun carId => Producer [mkCar ("Car " +:+ pretty carId) carId] C_arrived)
    <$> seqZ 1 maxCars.

(** [main] from line 180 to line 200, with the three values it has read:
    the bay pool, the queue, then the threads. *)
Definition main_station (queueSize pumpCount maxCars : Z) : outcome Station :=
  call pumps := Semaphore_new pumpCount in
  call queue := SharedQueue_new queueSize in
  Returns (start queue pumps (pump_threads pumpCount ++ car_threads maxCars)).

(** One pass of the loop at lines 208-216 as it runs: [waiting] is read
    in a station [W1] and [freePumps] in a later station [W2]. *)
Definition monitor_sample (pumpCount : Z) (W1 W2 : Station) : bool :=
  match getWaitingCarCount (squeue W1), availablePermits (pumps W2) with
  | Returns (waiting, _), Returns (freePumps, _) =>
      (waiting =? 0) && (freePumps =? pumpCount)
  | _, _ => false
  end.

Definition is_pump (t : thread) : Z :=
  match t with
  | Pump _ _ => 1
  | _ => 0
  end.

(** Left its loop through the handler at line 150. *)
Definition interrupted (t : thread) : Z :=
  match t with
  | Pump _ (P_catch | P_exit) => 1
  | _ => 0
  end.

(** No thread can take a step. *)
Definition stuck (W : Station) : Prop :=
  forall tid raises, step W tid raises = None.

(** The sizes printed at lines 88 and 109. *)
Definition printed_size_ok (N : Z) (x : nat * action) : Prop :=
  match x.2 with
  | APrint (Queued _ size) => 1 <= Z.of_nat size <= N
  | APrint (Dequeued _ _ size) => 0 <= Z.of_nat size <= N - 1
  | _ => True
  end.

(** Holds a permit of [full] and has already popped. *)
Definition popped_holding (t : thread) : Z := holds_full t - taken_unpopped t.

(** One producer and one pump: the names reported as serviced are those
    of the cars returned by [removeCar], but for the car the pump holds. *)
Definition served_inv (W : Station) : Prop :=
  exists todo cpc pumpId ppc,
    threads W = [Producer todo cpc; Pump pumpId ppc] /\
    match ppc with
    | P_pumps_acquire car | P_print_begin car | P_sleep car
    | P_print_finish car =>
        carName <$> returns (trace W) = finishes (trace W) ++ [carName car]
    | P_catch | P_exit =>
        exists name, carName <$> returns (trace W) = finishes (trace W) ++ [name]
    | _ => carName <$> returns (trace W) = finishes (trace W)
    end.

(** Calls of [acquire] that returned, and calls of [release], in a
    history. *)
Fixpoint acquired (h : list (Semaphore * sem_op * outcome Semaphore)) : Z :=
  match h with
  | [] => 0
  | (_, OpAcquire, Returns _) :: h' => 1 + acquired h'
  | _ :: h' => acquired h'
  end.

Fixpoint released (h : list (Semaphore * sem_op * outcome Semaphore)) : Z :=
  match h with
  | [] => 0
  | (_, OpRelease, _) :: h' => 1 + released h'
  | _ :: h' => released h'
  end.

(** The steps a thread has still to take for the cars it has on hand: 7
    of the producer for a car not yet handed to [addCar] and 14 of a pump
    for it; less for a call or a service under way. *)
Definition steps_left (t : thread) : Z :=
  match t with
  | Producer todo C_arrived => 21 * Z.of_nat (length todo)
  | Producer todo (C_addCar _ pc) =>
      21 * Z.of_nat (length todo) + 20 - Z.of_nat (add_index pc)
  | Pump _ pc =>
      match pc with
      | P_removeCar R_full_acquire => 0
      | P_removeCar R_mutex_acquire => 13
      | P_removeCar R_front => 12
      | P_removeCar (R_pop _) => 11
      | P_removeCar (R_print _) => 10
      | P_removeCar (R_mutex_release _) => 9
      | P_removeCar (R_empty_release _) => 8
      | P_removeCar (R_return _) => 7
      | P_removeCar R_undefined => 0
      | P_pumps_acquire _ => 6
      | P_print_begin _ => 5
      | P_sleep _ => 4
      | P_print_finish _ => 3
      | P_print_free _ => 2
      | P_pumps_release _ => 1
      | P_catch => 1
      | P_exit => 0
      end
  end.

(** The steps the whole station has still to take: those of its threads
    and 14 of some pump for every car that waits with a permit of
    [full]. *)
Definition work_left (W : Station) : Z :=
  tsum steps_left (threads W) + 14 * slots (full (squeue W)).

(** Stations used as examples: one car and one pump on a queue of
    capacity 2 with one bay, with the car queued, in service, serviced,
    and with the service interrupted. *)
Definition demo : Station := start queue2 pumps1 one_car_one_pump.
Definition demo_queued : Station := after demo (solo 0 7).
Definition demo_in_service : Station := after demo (solo 0 7 ++ solo 1 10).
Definition demo_done : Station := after demo (solo 0 7 ++ solo 1 14).
Definition demo_interrupted : Station :=
  after demo (solo 0 7 ++ solo 1 10 ++ [(1%nat, true)]).

(** The names in the "begins service" messages, in order. *)
Definition started (a : action) : option string :=
  match a with APrint (ServiceStarted _ name _) => Some name | _ => None end.
Definition starts (tr : list (nat * action)) : list string :=
  omap (fun x => started x.2) tr.

(** Has printed "begins service" and not "finishes service". *)
Definition servicing (t : thread) : Z :=
  match t with
  | Pump _ (P_sleep _ | P_print_finish _ | P_catch | P_exit) => 1
  | _ => 0
  end.

(** ** The input stream of [main]

    What [std::cin >> queueSize] finds next: the text of a decimal
    number, or text that is no number. *)
Inductive token : Type :=
| TNumber (z : Z)
| TOther.

(** [std::cin]: its failbit and the text not yet read. *)
Record cin : Type := mkCin { failbit : bool; unread : list token }.

(** [std::cin >> queueSize] for [int queueSize]: the stream afterwards
    and the value of [queueSize].  With failbit set, or at the end of the
    input, nothing is extracted, failbit is set and [queueSize] keeps its
    value.  A number outside [int] is read, stores the nearest bound and
    sets failbit; text that is no number stores 0 and sets failbit. *)
Definition extract (s : cin) (queueSize : Z) : cin * Z :=
  if failbit s then (s, queueSize)
  else
    match unread s with
    | TNumber z :: rest =>
        if z <? INT_MIN then (mkCin true rest, INT_MIN)
        else if INT_MAX <? z then (mkCin true rest, INT_MAX)
        else (mkCin false rest, z)
    | TOther :: rest => (mkCin true (TOther :: rest), 0)
    | [] => (mkCin true [], queueSize)
    end.

(** The loop at lines 168-171 run for at most [fuel] passes, entered with
    [queueSize] holding whatever the uninitialised variable of line 163
    holds: the value it leaves with and the stream then, or no result
    when it is still looping. *)
Fixpoint input_loop (fuel : nat) (s : cin) (queueSize : Z) : option (Z * cin) :=
  match fuel with
  | O => None
  | S fuel' =>
      let r := extract s queueSize in
      if (r.2 <? 1) || (r.2 >? 10)
      then input_loop fuel' r.1 r.2
      else Some (r.2, r.1)
  end.

(** The value the loop leaves with, read off an input that is not empty:
    the first number in 1..10, provided nothing before it makes the
    stream fail. *)
Fixpoint accepted (input : list token) : option Z :=
  match input with
  | TNumber z :: rest =>
      if (z <? INT_MIN) || (INT_MAX <? z) then None
      else if (z <? 1) || (z >? 10) then accepted rest
      else Some z
  | _ => None
  end.

(** ** Arithmetic of [int] and of thread counts *)

Lemma int_wrap_id (z : Z) : INT_MIN <= z <= INT_MAX -> int_wrap z = z.
Proof.
  unfold INT_MIN, INT_MAX, int_wrap. intros Hz.
  rewrite Z.mod_small; lia.
Qed.

Lemma tsum_insert (f : thread -> Z) (l : list thread) (i : nat) (t t' : thread) :
  l !! i = Some t -> tsum f (<[i := t']> l) = tsum f l - f t + f t'.
Proof.
  revert i. induction l as [|x l IH]; intros [|i] Hl; simplify_eq/=.
  - lia.
  - rewrite (IH i Hl). lia.
Qed.

Section Counting.
Variable f : thread -> Z.
Hypothesis f_nonneg : forall t, 0 <= f t.

Lemma tsum_nonneg (l : list thread) : 0 <= tsum f l.
Proof.
  induction l as [|x l IH]; simpl; [lia|].
  specialize (f_nonneg x). lia.
Qed.

Lemma tsum_lookup_le (l : list thread) (i : nat) (t : thread) :
  l !! i = Some t -> f t <= tsum f l.
Proof.
  revert i. induction l as [|x l IH]; intros [|i] Hl; simplify_eq/=.
  - pose proof (tsum_nonneg l). lia.
  - specialize (IH i Hl). specialize (f_nonneg x). lia.
Qed.

Lemma tsum_lookup2_le (l : list thread) (i j : nat) (t u : thread) :
  i <> j -> l !! i = Some t -> l !! j = Some u -> f t + f u <= tsum f l.
Proof.
  revert i j. induction l as [|x l IH]; intros [|i] [|j] Hij Hi Hj;
    simplify_eq/=.
  - pose proof (tsum_lookup_le l j u Hj). lia.
  - pose proof (tsum_lookup_le l i t Hi). lia.
  - assert (i <> j) as Hne by lia.
    specialize (IH i j Hne Hi Hj). specialize (f_nonneg x). lia.
Qed.

Lemma tsum_zero_lookup (l : list thread) (i : nat) (t : thread) :
  tsum f l = 0 -> l !! i = Some t -> f t = 0.
Proof.
  intros Hz Hl. pose proof (tsum_lookup_le l i t Hl).
  specialize (f_nonneg t). lia.
Qed.
End Counting.

Lemma tsum_zero_forallb (f : thread -> Z) (l : list thread) :
  forallb (fun t => f t =? 0) l = true -> tsum f l = 0.
Proof.
  induction l as [|x l IH]; simpl; [done|].
  intros [Hx Hl]%andb_prop. apply Z.eqb_eq in Hx. rewrite IH; [lia|done].
Qed.

Lemma holds_empty_nonneg t : 0 <= holds_empty t.
Proof. destruct t as [? [|? []]|]; simpl; lia. Qed.
Lemma holds_full_nonneg t : 0 <= holds_full t.
Proof. destruct t as [|? [[]| | | | | | | |]]; simpl; lia. Qed.
Lemma in_crit_nonneg t : 0 <= in_crit t.
Proof. destruct t as [? [|? []]|? [[]| | | | | | | |]]; simpl; lia. Qed.
Lemma pushed_unsignalled_nonneg t : 0 <= pushed_unsignalled t.
Proof. destruct t as [? [|? []]|]; simpl; lia. Qed.
Lemma taken_unpopped_nonneg t : 0 <= taken_unpopped t.
Proof. destruct t as [|? [[]| | | | | | | |]]; simpl; lia. Qed.
Lemma in_bay_nonneg t : 0 <= in_bay t.
Proof. destruct t as [|? []]; simpl; lia. Qed.
Lemma at_undefined_nonneg t : 0 <= at_undefined t.
Proof. destruct t as [|? [[]| | | | | | | |]]; simpl; lia. Qed.

Lemma unpushed_nonneg t : 0 <= unpushed t.
Proof. destruct t; simpl; lia. Qed.
Lemma unserved_nonneg t : 0 <= unserved t.
Proof. destruct t as [|? [[]| | | | | | | |]]; simpl; lia. Qed.
Lemma in_transit_nonneg t : 0 <= in_transit t.
Proof. destruct t as [|? [[]| | | | | | | |]]; simpl; lia. Qed.

(** ** Steps and runs *)

Lemma step_inv (W W' : Station) (tid : nat) (raises : bool) :
  step W tid raises = Some W' ->
  exists t a t' q' p',
    threads W !! tid = Some t /\
    thread_step raises t (squeue W) (pumps W) = Some (a, t', q', p') /\
    W' = mkStation q' p' (<[tid := t']> (threads W)) (trace W ++ [(tid, a)]).
Proof.
  unfold step. intros H.
  destruct (threads W !! tid) as [t|]; [|done].
  destruct (thread_step raises t (squeue W) (pumps W)) as [[[[a t'] q'] p']|] eqn:Hs;
    [|done].
  exists t, a, t', q', p'. by simplify_eq.
Qed.

Lemma step_intro (W : Station) (tid : nat) (raises : bool) t a t' q' p' :
  threads W !! tid = Some t ->
  thread_step raises t (squeue W) (pumps W) = Some (a, t', q', p') ->
  step W tid raises
  = Some (mkStation q' p' (<[tid := t']> (threads W)) (trace W ++ [(tid, a)])).
Proof. unfold step. intros Ht Hs. by rewrite Ht, Hs. Qed.

Lemma run_app (s1 s2 : list (nat * bool)) (W : Station) :
  run (s1 ++ s2) W = run s1 W ≫= run s2.
Proof.
  revert W. induction s1 as [|[tid r] s1 IH]; intros W; simpl; [done|].
  destruct (step W tid r); simpl; [apply IH|done].
Qed.

(** A property kept by every step holds after every run. *)
Lemma run_invariant (P : Station -> Prop) :
  (forall W tid raises W', P W -> step W tid raises = Some W' -> P W') ->
  forall sched W W', P W -> run sched W = Some W' -> P W'.
Proof.
  intros Hstep sched. induction sched as [|[tid r] sched IH]; intros W W' HP Hrun;
    simpl in Hrun.
  - by simplify_eq.
  - destruct (step W tid r) as [W1|] eqn:Hs; [|done].
    eapply IH; [|exact Hrun]. eapply Hstep; eauto.
Qed.

Lemma fresh_weights (ths : list thread) :
  forallb fresh ths = true ->
  tsum in_crit ths = 0 /\ tsum holds_empty ths = 0 /\ tsum holds_full ths = 0 /\
  tsum pushed_unsignalled ths = 0 /\ tsum taken_unpopped ths = 0 /\
  tsum in_bay ths = 0 /\ tsum at_undefined ths = 0 /\ tsum unserved ths = 0 /\
  tsum in_transit ths = 0.
Proof.
  induction ths as [|t ths IH]; simpl; [repeat split; done|].
  intros [Ht Hths]%andb_prop. specialize (IH Hths).
  destruct t as [? [|? []]|? [[]| | | | | | | |]]; simpl in *; try discriminate; lia.
Qed.

(** ** The queue protocol keeps its invariants *)

Ltac thread_cases t Hs :=
  destruct t as [? [|? []]|? [[]| | | | | | | |]];
  simpl in Hs; unfold acquire, release in Hs; simpl in Hs;
  repeat match type of Hs with
    | context [0 <? ?x] => destruct (Z.ltb_spec 0 x); simpl in Hs
    | context [match ?l with [] => _ | _ :: _ => _ end] =>
        let Hq := fresh "Hq" in
        destruct l eqn:Hq; simpl in Hs; try rewrite Hq in *
    | context [if ?b then _ else _] => destruct b; simpl in Hs
    end;
  try discriminate; injection Hs as <- <- <- <-.

Ltac weigh Ht :=
  simpl; rewrite ?(tsum_insert _ _ _ _ _ Ht); simpl;
  repeat match goal with H : queue _ = _ |- _ => rewrite H; simpl end;
  rewrite ?length_app; simpl;
  rewrite ?int_wrap_id by (unfold INT_MIN, INT_MAX in *; lia);
  try lia.

Lemma queue_inv_step N W W' tid raises :
  N <= INT_MAX -> queue_inv N W -> step W tid raises = Some W' -> queue_inv N W'.
Proof.
  intros HN [Hm Hm0 Hsl He0 Hf0 Hsz Hud] (t & a & t' & q' & p' & Ht & Hs & ->)%step_inv.
  destruct W as [q p ths tr]; unfold size in *; simpl in *.
  pose proof (tsum_lookup_le _ in_crit_nonneg _ _ _ Ht).
  pose proof (tsum_lookup_le _ holds_empty_nonneg _ _ _ Ht).
  pose proof (tsum_lookup_le _ holds_full_nonneg _ _ _ Ht).
  pose proof (tsum_lookup_le _ pushed_unsignalled_nonneg _ _ _ Ht).
  pose proof (tsum_lookup_le _ taken_unpopped_nonneg _ _ _ Ht).
  pose proof (tsum_lookup_le _ at_undefined_nonneg _ _ _ Ht).
  pose proof (tsum_nonneg _ in_crit_nonneg ths).
  pose proof (tsum_nonneg _ holds_empty_nonneg ths).
  pose proof (tsum_nonneg _ holds_full_nonneg ths).
  pose proof (tsum_nonneg _ pushed_unsignalled_nonneg ths).
  pose proof (tsum_nonneg _ taken_unpopped_nonneg ths).
  thread_cases t Hs; simpl in *.
  all: split; unfold size; weigh Ht.
Qed.

Lemma queue_inv_start N q p ths :
  SharedQueue_new N = Returns q -> forallb fresh ths = true ->
  queue_inv N (start q p ths).
Proof.
  unfold SharedQueue_new, Semaphore_new. intros Hq Hf.
  destruct (fresh_weights ths Hf) as (?&?&?&?&?&?&?&?&?).
  destruct (Z.ltb_spec N 0); simpl in Hq; [done|]. simplify_eq.
  split; unfold size; simpl; lia.
Qed.

Lemma queue_inv_run N q p ths sched W :
  N <= INT_MAX -> SharedQueue_new N = Returns q -> forallb fresh ths = true ->
  run sched (start q p ths) = Some W -> queue_inv N W.
Proof.
  intros HN Hq Hf Hrun.
  eapply (run_invariant (queue_inv N)); [|by apply queue_inv_start|exact Hrun].
  intros ? ? ? ? ? ?. by eapply queue_inv_step.
Qed.

Lemma bay_inv_step B W W' tid raises :
  B <= INT_MAX -> bay_inv B W -> step W tid raises = Some W' -> bay_inv B W'.
Proof.
  intros HB [Hb Hb0] (t & a & t' & q' & p' & Ht & Hs & ->)%step_inv.
  destruct W as [q p ths tr]; simpl in *.
  pose proof (tsum_lookup_le _ in_bay_nonneg _ _ _ Ht).
  pose proof (tsum_nonneg _ in_bay_nonneg ths).
  thread_cases t Hs; simpl in *.
  all: split; weigh Ht.
Qed.

Lemma bay_inv_run B q p ths sched W :
  B <= INT_MAX -> Semaphore_new B = Returns p -> forallb fresh ths = true ->
  run sched (start q p ths) = Some W -> bay_inv B W.
Proof.
  intros HB Hp Hf Hrun.
  eapply (run_invariant (bay_inv B)); [| |exact Hrun].
  - intros ? ? ? ? ? ?. by eapply bay_inv_step.
  - destruct (fresh_weights ths Hf) as (?&?&?&?&?&?&?&?&?).
    unfold Semaphore_new in Hp. destruct (Z.ltb_spec B 0); [done|]. simplify_eq.
    split; simpl; lia.
Qed.

(** ** The FIFO and the cars the threads hold *)

Lemma lookup_insert_cases (ths : list thread) (tid i : nat) (t t' u : thread) :
  ths !! tid = Some t -> <[tid := t']> ths !! i = Some u ->
  (i = tid /\ u = t') \/ (i <> tid /\ ths !! i = Some u).
Proof.
  intros Ht Hi. destruct (decide (i = tid)) as [->|Hne].
  - left. rewrite list_lookup_insert_eq in Hi by (by eapply lookup_lt_Some).
    by simplify_eq.
  - right. by rewrite list_lookup_insert_ne in Hi.
Qed.

Lemma head_inv_step N W W' tid raises :
  queue_inv N W -> head_inv W -> step W tid raises = Some W' -> head_inv W'.
Proof.
  intros [Hm Hm0 _ _ _ _ _] Hh (t & a & t' & q' & p' & Ht & Hs & ->)%step_inv.
  intros i pumpId car Hi. simpl in Hi.
  pose proof (tsum_nonneg _ in_crit_nonneg (threads W)) as Hc.
  destruct (lookup_insert_cases _ _ _ _ _ _ Ht Hi) as [[-> Heq]|[Hne Hi']].
  - thread_cases t Hs; simplify_eq. simpl. eauto.
  - destruct (Hh _ _ _ Hi') as [rest Hrest].
    pose proof (tsum_lookup2_le _ in_crit_nonneg _ _ _ _ _ Hne Hi' Ht) as H2.
    simpl in H2.
    thread_cases t Hs; simpl in *; eauto; lia.
Qed.

Lemma pushes_snoc tr tid a :
  pushes (tr ++ [(tid, a)]) = pushes tr ++ from_option (fun c => [c]) [] (pushed a).
Proof. unfold pushes. rewrite omap_app. simpl. by destruct (pushed a). Qed.
Lemma pops_snoc tr tid a :
  pops (tr ++ [(tid, a)]) = pops tr ++ from_option (fun c => [c]) [] (popped a).
Proof. unfold pops. rewrite omap_app. simpl. by destruct (popped a). Qed.
Lemma returns_snoc tr tid a :
  returns (tr ++ [(tid, a)]) = returns tr ++ from_option (fun c => [c]) [] (returned a).
Proof. unfold returns. rewrite omap_app. simpl. by destruct (returned a). Qed.
Lemma finishes_snoc tr tid a :
  finishes (tr ++ [(tid, a)]) = finishes tr ++ from_option (fun c => [c]) [] (finished a).
Proof. unfold finishes. rewrite omap_app. simpl. by destruct (finished a). Qed.

Lemma fifo_inv_step W W' tid raises :
  fifo_inv W -> step W tid raises = Some W' -> fifo_inv W'.
Proof.
  unfold fifo_inv.
  intros Hf (t & a & t' & q' & p' & Ht & Hs & ->)%step_inv. simpl.
  rewrite pushes_snoc, pops_snoc.
  thread_cases t Hs; simpl in *;
    repeat match goal with H : queue ?q = _ |- context [queue ?q] => rewrite H end;
    rewrite ?app_nil_r; try done.
  all: rewrite Hf, ?app_nil_r; try done.
  all: by rewrite <- app_assoc.
Qed.

Lemma fifo_inv_run q p ths sched W :
  queue q = [] -> run sched (start q p ths) = Some W -> fifo_inv W.
Proof.
  intros Hq Hrun.
  eapply (run_invariant fifo_inv); [| |exact Hrun].
  - intros ? ? ? ? ? ?. by eapply fifo_inv_step.
  - unfold fifo_inv. simpl. by rewrite Hq.
Qed.

Lemma SharedQueue_new_queue N q : SharedQueue_new N = Returns q -> queue q = [].
Proof.
  unfold SharedQueue_new, Semaphore_new.
  destruct (N <? 0); simpl; [done|]. by intros [= <-].
Qed.

Lemma head_inv_run N q p ths sched W :
  N <= INT_MAX -> SharedQueue_new N = Returns q -> forallb fresh ths = true ->
  run sched (start q p ths) = Some W -> head_inv W.
Proof.
  intros HN Hq Hf Hrun.
  cut (queue_inv N W /\ head_inv W); [tauto|].
  eapply (run_invariant (fun W => queue_inv N W /\ head_inv W)); [| |exact Hrun].
  - intros ? ? ? ? [] ?. split; [by eapply queue_inv_step|by eapply head_inv_step].
  - split; [by apply queue_inv_start|].
    intros i pumpId car Hi. simpl in Hi.
    apply list_elem_of_lookup_2, list_elem_of_In in Hi.
    rewrite forallb_forall in Hf. apply Hf in Hi. done.
Qed.

Lemma spsc_inv_step cars W W' tid raises :
  head_inv W -> spsc_inv cars W -> step W tid raises = Some W' -> spsc_inv cars W'.
Proof.
  intros Hh (todo & cpc & id & ppc & Hths & Hpush & Hret)
    (t & a & t' & q' & p' & Ht & Hs & ->)%step_inv.
  unfold spsc_inv; simpl. rewrite pushes_snoc, pops_snoc, returns_snoc.
  unfold head_inv in Hh. rewrite Hths in Ht, Hh |- *.
  thread_cases t Hs; destruct tid as [|[|tid]]; simplify_eq/=.
  all: eexists _, _, _, _; split; [reflexivity|]; simpl.
  all: rewrite ?app_nil_r in *; rewrite <- ?app_assoc; simpl.
  all: try (split; congruence).
  destruct (Hh 1%nat _ _ eq_refl) as [rest Hrest]. simplify_eq.
  split; congruence.
Qed.

Lemma spsc_inv_run N q p cars pumpId sched W :
  N <= INT_MAX -> SharedQueue_new N = Returns q ->
  run sched (start q p [Producer cars C_arrived; Pump pumpId (P_removeCar R_full_acquire)])
  = Some W ->
  spsc_inv cars W.
Proof.
  intros HN Hq Hrun.
  set (ths := [Producer cars C_arrived; Pump pumpId (P_removeCar R_full_acquire)]) in *.
  assert (forallb fresh ths = true) as Hf by done.
  cut ((queue_inv N W /\ head_inv W) /\ spsc_inv cars W); [tauto|].
  eapply (run_invariant (fun W => (queue_inv N W /\ head_inv W) /\ spsc_inv cars W));
    [| |exact Hrun].
  - intros ? ? ? ? [[] ?] ?. split; [split|].
    + by eapply queue_inv_step.
    + by eapply head_inv_step.
    + by eapply spsc_inv_step.
  - split; [split|].
    + by apply queue_inv_start.
    + eapply (head_inv_run N q p ths []); eauto.
    + exists cars, C_arrived, pumpId, (P_removeCar R_full_acquire). done.
Qed.

(** ** Counting clients and bay permits *)

Lemma count_inv_step G W W' tid raises :
  count_inv G W -> step W tid raises = Some W' -> count_inv G W'.
Proof.
  intros [Hpu Hpo] (t & a & t' & q' & p' & Ht & Hs & ->)%step_inv.
  destruct W as [q p ths tr]; simpl in *.
  thread_cases t Hs; simpl in *.
  all: split; simpl; rewrite ?pushes_snoc, ?pops_snoc, ?finishes_snoc; simpl;
    rewrite ?app_nil_r; weigh Ht.
Qed.

Lemma count_inv_run q p ths sched W :
  forallb fresh ths = true ->
  run sched (start q p ths) = Some W -> count_inv (generated ths) W.
Proof.
  intros Hf Hrun.
  eapply (run_invariant (count_inv (generated ths))); [| |exact Hrun].
  - intros ? ? ? ? ? ?. by eapply count_inv_step.
  - destruct (fresh_weights ths Hf) as (?&?&?&?&?&?&?&?&?).
    split; simpl; unfold generated; lia.
Qed.

Lemma occurrences_snoc sel tid tr i a :
  occurrences sel tid (tr ++ [(i, a)])
  = occurrences sel tid tr + (if (i =? tid)%nat && sel a then 1 else 0).
Proof.
  induction tr as [|[j b] tr IH]; simpl; [lia|]. rewrite IH. lia.
Qed.

Section Paired.
Variables acq rel : action -> bool.
Variable holds : thread -> Z.
Hypothesis holds_fresh : forall t, fresh t = true -> holds t = 0.
Hypothesis holds_step :
  forall raises t q p a t' q' p',
    thread_step raises t q p = Some (a, t', q', p') ->
    (if acq a then 1 else 0) + holds t = (if rel a then 1 else 0) + holds t'.

Lemma paired_step W W' tid raises :
  paired acq rel holds W -> step W tid raises = Some W' ->
  paired acq rel holds W'.
Proof.
  intros Hp (t & a & t' & q' & p' & Ht & Hs & ->)%step_inv.
  intros i u Hi. simpl in *. rewrite !occurrences_snoc.
  apply holds_step in Hs.
  destruct (lookup_insert_cases _ _ _ _ _ _ Ht Hi) as [[-> Heq]|[Hne Hi']].
  - specialize (Hp _ _ Ht). rewrite Nat.eqb_refl. simpl. subst u.
    destruct (acq a), (rel a); lia.
  - specialize (Hp _ _ Hi').
    destruct (Nat.eqb_spec tid i); [congruence|]. simpl. lia.
Qed.

Lemma paired_run q p ths sched W :
  forallb fresh ths = true ->
  run sched (start q p ths) = Some W ->
  paired acq rel holds W.
Proof.
  intros Hf Hrun.
  eapply (run_invariant (paired acq rel holds)); [| |exact Hrun].
  - intros ? ? ? ? ? ?. by eapply paired_step.
  - intros i t Hi. simpl in *.
    apply list_elem_of_lookup_2, list_elem_of_In in Hi.
    rewrite forallb_forall in Hf. apply Hf in Hi.
    rewrite (holds_fresh _ Hi). lia.
Qed.
End Paired.

Lemma bay_paired_run q p ths sched W :
  forallb fresh ths = true ->
  run sched (start q p ths) = Some W ->
  paired is_bay_acquire is_bay_release in_bay W.
Proof.
  apply paired_run.
  - intros [? [|? []]|? [[]| | | | | | | |]]; simpl; done.
  - intros raises t sq pm a t' sq' pm' Hs. thread_cases t Hs; simpl; lia.
Qed.


(** * The semaphore *)

Lemma acquire_spec (s s' : Semaphore) :
  0 <= slots s <= INT_MAX -> acquire s = Returns s' ->
  0 < slots s /\ slots s' = slots s - 1.
Proof.
  unfold acquire. intros Hs H. destruct (Z.ltb_spec 0 (slots s)); [|done].
  simplify_eq/=. rewrite int_wrap_id by (unfold INT_MIN, INT_MAX in *; lia). lia.
Qed.

Lemma acquire_waits (s : Semaphore) :
  0 <= slots s -> acquire s = Waits -> slots s = 0.
Proof.
  unfold acquire. intros Hs H. destruct (Z.ltb_spec 0 (slots s)); [done|lia].
Qed.

Lemma release_spec (s : Semaphore) :
  0 <= slots s < INT_MAX ->
  release s = Returns (mkSemaphore (slots s + 1)).
Proof.
  unfold release. intros Hs.
  by rewrite int_wrap_id by (unfold INT_MIN, INT_MAX in *; lia).
Qed.

Lemma sem_history_ok (ops : list sem_op) (s0 : Semaphore) :
  0 <= slots s0 <= INT_MAX ->
  Forall release_in_range (sem_history s0 ops) ->
  Forall sem_call_ok (sem_history s0 ops) /\
  Forall (fun c => 0 <= slots c.1.1) (sem_history s0 ops) /\
  0 <= slots (sem_run s0 ops).
Proof.
  revert s0. induction ops as [|op ops IH]; intros s0 Hs0 Hr; simpl in *.
  - repeat split; [constructor|constructor|lia].
  - apply Forall_cons in Hr as [Hop Hr].
    assert (sem_call_ok (s0, op, sem_call op s0) /\
            0 <= slots (sem_after s0 (sem_call op s0)) <= INT_MAX) as [Hok Hnext].
    { destruct op; unfold sem_call; simpl in Hop.
      - destruct (acquire s0) as [s'| |e] eqn:Ha; simpl.
        + destruct (acquire_spec _ _ Hs0 Ha). lia.
        + split; [|lia]. apply acquire_waits; [lia|done].
        + unfold acquire in Ha. by destruct (0 <? slots s0).
      - rewrite release_spec by lia. simpl. lia. }
    destruct (IH _ Hnext Hr) as (H1 & H2 & H3).
    repeat split; [by constructor|constructor; simpl; [lia|done]|done].
Qed.

(** C7 (amended): from a semaphore built with a count [0 <= initial] of
    type [int], over every sequence of [acquire] and [release] calls in
    which the count is below [INT_MAX] whenever [release] is called, the
    count is never negative; a call of [acquire] that returns found a
    count [> 0] and took exactly 1 from it, one that finds the count at 0
    waits and changes nothing (the predicate is evaluated again at the next
    call); every [release] adds exactly 1. *)
Theorem semaphore_counts_in_range (initial : Z) (s0 : Semaphore) (ops : list sem_op) :
  Semaphore_new initial = Returns s0 ->
  initial <= INT_MAX ->
  Forall release_in_range (sem_history s0 ops) ->
  Forall sem_call_ok (sem_history s0 ops) /\
  Forall (fun c => 0 <= slots c.1.1) (sem_history s0 ops) /\
  0 <= slots (sem_run s0 ops).
Proof.
  unfold Semaphore_new. intros Hnew Hmax Hr.
  destruct (Z.ltb_spec initial 0); [done|]. simplify_eq.
  apply sem_history_ok; simpl; [lia|done].
Qed.

Lemma semaphore_counts_in_range_witness :
  Semaphore_new 1 = Returns (mkSemaphore 1) /\
  1 <= INT_MAX /\
  Forall release_in_range
    (sem_history (mkSemaphore 1) [OpAcquire; OpAcquire; OpRelease; OpAcquire]) /\
  Forall sem_call_ok
    (sem_history (mkSemaphore 1) [OpAcquire; OpAcquire; OpRelease; OpAcquire]) /\
  0 <= slots (sem_run (mkSemaphore 1) [OpAcquire; OpAcquire; OpRelease; OpAcquire]).
Proof.
  assert (Semaphore_new 1 = Returns (mkSemaphore 1)) as H1 by (vm_compute; reflexivity).
  assert (1 <= INT_MAX) as H2 by (unfold INT_MAX; lia).
  assert (Forall release_in_range
            (sem_history (mkSemaphore 1) [OpAcquire; OpAcquire; OpRelease; OpAcquire]))
    as H3 by (repeat constructor).
  destruct (semaphore_counts_in_range 1 _ _ H1 H2 H3) as (H4 & _ & H5).
  exact (conj H1 (conj H2 (conj H3 (conj H4 H5)))).
Defined.

(** C7 (as stated) fails: a semaphore built with [INT_MAX] permits is
    valid, and one [release] takes its count to [INT_MIN]: negative, and
    not the old count plus 1. *)
Lemma release_at_INT_MAX_wraps :
  Semaphore_new INT_MAX = Returns (mkSemaphore INT_MAX) /\
  release (mkSemaphore INT_MAX) = Returns (mkSemaphore INT_MIN) /\
  slots (sem_run (mkSemaphore INT_MAX) [OpRelease]) < 0 /\
  ~ Forall sem_call_ok (sem_history (mkSemaphore INT_MAX) [OpRelease]).
Proof.
  repeat split; try reflexivity.
  intros H. apply Forall_cons in H as [H _]. vm_compute in H. discriminate.
Qed.

(** C8: [Semaphore(initial)] throws [std::invalid_argument] when
    [initial < 0] and returns a semaphore with [initial] permits when
    [initial >= 0]; after that no call of [acquire] or [release], after
    any sequence of such calls, throws. *)
Theorem semaphore_errors_only_at_construction (initial : Z) :
  (initial < 0 ->
   Semaphore_new initial
   = Throws (invalid_argument "Initial slots cannot be negative")) /\
  (0 <= initial -> Semaphore_new initial = Returns (mkSemaphore initial)) /\
  (forall s0 ops op e,
     Semaphore_new initial = Returns s0 ->
     sem_call op (sem_run s0 ops) <> Throws e).
Proof.
  unfold Semaphore_new. repeat split.
  - intros H. by destruct (Z.ltb_spec initial 0); [|lia].
  - intros H. by destruct (Z.ltb_spec initial 0); [lia|].
  - intros s0 ops op e _. generalize (sem_run s0 ops). intros s.
    destruct op; simpl; unfold acquire, release; [|done].
    by destruct (0 <? slots s).
Qed.

Lemma semaphore_errors_only_at_construction_witness :
  Semaphore_new (-1)
  = Throws (invalid_argument "Initial slots cannot be negative") /\
  Semaphore_new 3 = Returns (mkSemaphore 3) /\
  sem_call OpAcquire (sem_run (mkSemaphore 3) [OpAcquire; OpRelease])
  <> Throws (invalid_argument "Initial slots cannot be negative").
Proof.
  split; [|split].
  - apply (semaphore_errors_only_at_construction (-1)). lia.
  - apply (semaphore_errors_only_at_construction 3). lia.
  - apply (semaphore_errors_only_at_construction 3). reflexivity.
Defined.

(** C10: [availablePermits] returns the permit count and leaves the
    semaphore as it was; [getWaitingCarCount] returns exactly what
    [full.availablePermits()] returns and leaves the FIFO and the three
    semaphores of the queue as they were. *)
Theorem observers_change_nothing (q : SharedQueue) (s : Semaphore) :
  availablePermits s = Returns (slots s, s) /\
  getWaitingCarCount q = Returns (slots (full q), q) /\
  exists n f,
    availablePermits (full q) = Returns (n, f) /\
    getWaitingCarCount q = Returns (n, q) /\
    f = full q.
Proof.
  destruct q as [l e f m]. unfold getWaitingCarCount, availablePermits. simpl.
  repeat split. by exists (slots f), f.
Qed.

(** * Construction of the queue *)

Lemma read_queueSize_range (input : list Z) (n : Z) :
  read_queueSize input = Some n -> 1 <= n <= 10.
Proof.
  induction input as [|z input IH]; simpl; [done|].
  destruct (Z.ltb_spec z 1); simpl; [exact IH|].
  destruct (Z.gtb_spec z 10); [exact IH|]. intros [= <-]. lia.
Qed.

(** C4 (amended): [SharedQueue(capacity)] throws [std::invalid_argument]
    exactly when [capacity < 0]; for every [capacity >= 0], zero
    included, it returns an empty queue with [capacity] permits in
    [empty], none in [full] and one in [mutex].  The range 1..10 is
    enforced by the input loop of [main], not by the constructor. *)
Theorem SharedQueue_construction (capacity : Z) :
  (capacity < 0 ->
   SharedQueue_new capacity
   = Throws (invalid_argument "Initial slots cannot be negative")) /\
  (0 <= capacity ->
   SharedQueue_new capacity
   = Returns (mkSharedQueue [] (mkSemaphore capacity) (mkSemaphore 0)
                (mkSemaphore 1))) /\
  (forall input, read_queueSize input = Some capacity -> 1 <= capacity <= 10).
Proof.
  unfold SharedQueue_new, Semaphore_new. split; [|split].
  - intros H. by destruct (Z.ltb_spec capacity 0); [|lia].
  - intros H. by destruct (Z.ltb_spec capacity 0); [lia|].
  - intros input. apply read_queueSize_range.
Qed.

Lemma SharedQueue_construction_witness :
  SharedQueue_new (-1)
  = Throws (invalid_argument "Initial slots cannot be negative") /\
  SharedQueue_new 3
  = Returns (mkSharedQueue [] (mkSemaphore 3) (mkSemaphore 0) (mkSemaphore 1)) /\
  read_queueSize [0; 11; 3; 7] = Some 3 /\ 1 <= 3 <= 10.
Proof.
  split; [|split; [|split]].
  - apply (SharedQueue_construction (-1)). lia.
  - apply (SharedQueue_construction 3). lia.
  - reflexivity.
  - apply (SharedQueue_construction 3) with (input := [0; 11; 3; 7]). reflexivity.
Defined.

(** C4 (as stated) fails: with [capacity = 0] the constructor returns a
    queue; no producer can ever enter it. *)
Lemma SharedQueue_new_zero_returns :
  SharedQueue_new 0
  = Returns (mkSharedQueue [] (mkSemaphore 0) (mkSemaphore 0) (mkSemaphore 1)) /\
  addCar_step car1 A_empty_acquire
    (mkSharedQueue [] (mkSemaphore 0) (mkSemaphore 0) (mkSemaphore 1)) = None.
Proof. split; reflexivity. Qed.

(** * The bounded queue under any interleaving *)

Lemma tsum_le (f g : thread -> Z) (l : list thread) :
  (forall t, f t <= g t) -> tsum f l <= tsum g l.
Proof.
  intros Hfg. induction l as [|t l IH]; simpl; [lia|].
  specialize (Hfg t). lia.
Qed.

Lemma no_call_in_progress_weights (W : Station) :
  no_call_in_progress W = true ->
  tsum holds_empty (threads W) = 0 /\ tsum holds_full (threads W) = 0.
Proof.
  unfold no_call_in_progress. induction (threads W) as [|t l IH]; simpl; [done|].
  intros [[He Hf]%andb_prop Hl]%andb_prop.
  apply Z.eqb_eq in He, Hf. specialize (IH Hl). lia.
Qed.


Lemma pushed_le_holds t : pushed_unsignalled t <= holds_empty t.
Proof. destruct t as [? [|? []]|]; simpl; lia. Qed.
Lemma unpopped_le_holds t : taken_unpopped t <= holds_full t.
Proof. destruct t as [|? [[]| | | | | | | |]]; simpl; lia. Qed.

Lemma tsum_plus (f g : thread -> Z) (l : list thread) :
  tsum (fun t => f t + g t) l = tsum f l + tsum g l.
Proof. induction l as [|t l IH]; simpl; lia. Qed.

(** C1 (amended): on a queue built with capacity [N], after any
    interleaving of the steps of any threads that call [addCar] and
    [removeCar], the FIFO holds between 0 and [N] cars, [full] and
    [empty] hold between 0 and [N] permits and together at most [N]; and
    whenever no thread is between the first [acquire] and the last
    [release] of a call, [empty] and [full] together hold exactly [N]
    permits and the FIFO holds as many cars as [full] has permits. *)
Theorem capacity_invariant (N : Z) (q : SharedQueue) (p : Semaphore)
  (ths : list thread) (sched : list (nat * bool)) (W : Station) :
  SharedQueue_new N = Returns q ->
  N <= INT_MAX ->
  forallb fresh ths = true ->
  run sched (start q p ths) = Some W ->
  0 <= size W <= N /\
  0 <= slots (full (squeue W)) <= N /\
  0 <= slots (empty (squeue W)) <= N /\
  slots (empty (squeue W)) + slots (full (squeue W)) <= N /\
  (no_call_in_progress W = true ->
   slots (empty (squeue W)) + slots (full (squeue W)) = N /\
   size W = slots (full (squeue W))).
Proof.
  intros Hq HN Hf Hrun.
  destruct (queue_inv_run N q p ths sched W HN Hq Hf Hrun)
    as [Hm Hm0 Hsl He0 Hf0 Hsz Hud].
  pose proof (tsum_nonneg _ holds_empty_nonneg (threads W)).
  pose proof (tsum_nonneg _ holds_full_nonneg (threads W)).
  pose proof (tsum_nonneg _ pushed_unsignalled_nonneg (threads W)).
  pose proof (tsum_nonneg _ taken_unpopped_nonneg (threads W)).
  pose proof (tsum_le _ _ (threads W) pushed_le_holds).
  pose proof (tsum_le _ _ (threads W) unpopped_le_holds).
  split; [lia|]. split; [lia|]. split; [lia|]. split; [lia|].
  intros [? ?]%no_call_in_progress_weights. lia.
Qed.

Lemma capacity_invariant_witness :
  SharedQueue_new 2 = Returns queue2 /\
  2 <= INT_MAX /\
  forallb fresh one_car_one_pump = true /\
  run (solo 0 7 ++ solo 1 8) (start queue2 pumps1 one_car_one_pump)
  = Some (after (start queue2 pumps1 one_car_one_pump) (solo 0 7 ++ solo 1 8)) /\
  no_call_in_progress
    (after (start queue2 pumps1 one_car_one_pump) (solo 0 7 ++ solo 1 8)) = true /\
  0 <= size (after (start queue2 pumps1 one_car_one_pump) (solo 0 7 ++ solo 1 8)) <= 2.
Proof.
  assert (SharedQueue_new 2 = Returns queue2) as H1 by (vm_compute; reflexivity).
  assert (2 <= INT_MAX) as H2 by (unfold INT_MAX; lia).
  assert (forallb fresh one_car_one_pump = true) as H3 by (vm_compute; reflexivity).
  assert (run (solo 0 7 ++ solo 1 8) (start queue2 pumps1 one_car_one_pump)
          = Some (after (start queue2 pumps1 one_car_one_pump) (solo 0 7 ++ solo 1 8)))
    as H4 by (vm_compute; reflexivity).
  pose proof (capacity_invariant 2 _ _ _ _ _ H1 H2 H3 H4) as (H5 & _).
  repeat split; try assumption; try reflexivity; apply H5.
Defined.

(** C1 (as stated) fails.  With capacity 1, once a car thread has taken
    its permit of [empty] no thread is in the critical section, and
    [empty] and [full] together hold 0 permits, not 1; once it has left
    the critical section and not yet released [full], again no thread is
    in the critical section, and the FIFO holds 1 car while [full] has 0
    permits. *)
Lemma slot_conservation_outside_critical_section_fails :
  exists W1 W2,
    station_after 1 1 one_car_one_pump (solo 0 2) = Some W1 /\
    quiescent W1 = true /\
    slots (empty (squeue W1)) + slots (full (squeue W1)) = 0 /\
    station_after 1 1 one_car_one_pump (solo 0 6) = Some W2 /\
    quiescent W2 = true /\
    size W2 = 1 /\ slots (full (squeue W2)) = 0.
Proof.
  eexists _, _. split; [vm_compute; reflexivity|].
  split; [vm_compute; reflexivity|]. split; [vm_compute; reflexivity|].
  split; [vm_compute; reflexivity|]. split; [vm_compute; reflexivity|].
  split; vm_compute; reflexivity.
Qed.



(** * First in, first out *)

Lemma defined_trace_step N W W' tid raises :
  queue_inv N W -> defined_trace W -> step W tid raises = Some W' ->
  defined_trace W'.
Proof.
  intros [Hm Hm0 Hsl He0 Hf0 Hsz Hud] Hd (t & a & t' & q' & p' & Ht & Hs & ->)%step_inv.
  unfold defined_trace, size in *. simpl. apply Forall_app. split; [done|].
  constructor; [|constructor]. simpl.
  pose proof (tsum_lookup_le _ taken_unpopped_nonneg _ _ _ Ht).
  pose proof (tsum_nonneg _ pushed_unsignalled_nonneg (threads W)).
  thread_cases t Hs; simpl in *; try done; lia.
Qed.

Lemma defined_trace_run N q p ths sched W :
  N <= INT_MAX -> SharedQueue_new N = Returns q -> forallb fresh ths = true ->
  run sched (start q p ths) = Some W -> defined_trace W.
Proof.
  intros HN Hq Hf Hrun.
  cut (queue_inv N W /\ defined_trace W); [tauto|].
  eapply (run_invariant (fun W => queue_inv N W /\ defined_trace W)); [| |exact Hrun].
  - intros ? ? ? ? [] ?. split; [by eapply queue_inv_step|by eapply defined_trace_step].
  - split; [by apply queue_inv_start|constructor].
Qed.

(** C2: with one producer that passes [cars] to [addCar] in order and
    one pump, after any interleaving the cars returned by [removeCar] so
    far are the first of [cars], in the same order; they are the cars
    popped off the front of the FIFO, but for at most the one popped and
    not yet returned; and no call ran into an empty FIFO. *)
Theorem fifo_single_producer_single_consumer (N : Z) (q : SharedQueue)
  (p : Semaphore) (cars : list Car) (pumpId : Z) (sched : list (nat * bool))
  (W : Station) :
  SharedQueue_new N = Returns q ->
  N <= INT_MAX ->
  run sched
    (start q p [Producer cars C_arrived; Pump pumpId (P_removeCar R_full_acquire)])
  = Some W ->
  (exists rest, cars = returns (trace W) ++ rest) /\
  (exists held, pops (trace W) = returns (trace W) ++ held /\ (length held <= 1)%nat) /\
  Forall (fun x => x.2 <> AUndefined) (trace W) /\
  tsum at_undefined (threads W) = 0.
Proof.
  intros Hq HN Hrun.
  assert (forallb fresh
            [Producer cars C_arrived; Pump pumpId (P_removeCar R_full_acquire)] = true)
    as Hf by done.
  destruct (spsc_inv_run N q p cars pumpId sched W HN Hq Hrun)
    as (todo & cpc & id & ppc & Hths & Hpush & Hret).
  pose proof (fifo_inv_run q p _ sched W (SharedQueue_new_queue _ _ Hq) Hrun) as Hfifo.
  unfold fifo_inv in Hfifo.
  split; [|split; [|split]].
  - exists (in_flight ppc ++ queue (squeue W) ++ to_push todo cpc).
    rewrite <- Hpush, Hfifo, <- Hret. by rewrite <- !app_assoc.
  - exists (in_flight ppc). split; [done|].
    destruct ppc as [[]| | | | | | | |]; simpl; lia.
  - by eapply defined_trace_run.
  - by destruct (queue_inv_run N q p _ sched W HN Hq Hf Hrun).
Qed.

Lemma fifo_single_producer_single_consumer_witness :
  SharedQueue_new 2 = Returns queue2 /\
  2 <= INT_MAX /\
  run (solo 0 14 ++ solo 1 8)
    (start queue2 pumps1
       [Producer [car1; car2] C_arrived; Pump 1 (P_removeCar R_full_acquire)])
  = Some (after (start queue2 pumps1
                   [Producer [car1; car2] C_arrived;
                    Pump 1 (P_removeCar R_full_acquire)])
            (solo 0 14 ++ solo 1 8)) /\
  exists rest,
    [car1; car2]
    = returns (trace (after (start queue2 pumps1
                               [Producer [car1; car2] C_arrived;
                                Pump 1 (P_removeCar R_full_acquire)])
                        (solo 0 14 ++ solo 1 8))) ++ rest.
Proof.
  assert (SharedQueue_new 2 = Returns queue2) as H1 by (vm_compute; reflexivity).
  assert (2 <= INT_MAX) as H2 by (unfold INT_MAX; lia).
  assert (run (solo 0 14 ++ solo 1 8)
            (start queue2 pumps1
               [Producer [car1; car2] C_arrived; Pump 1 (P_removeCar R_full_acquire)])
          = Some (after (start queue2 pumps1
                           [Producer [car1; car2] C_arrived;
                            Pump 1 (P_removeCar R_full_acquire)])
                    (solo 0 14 ++ solo 1 8))) as H3 by (vm_compute; reflexivity).
  pose proof (fifo_single_producer_single_consumer 2 _ _ _ _ _ _ H1 H2 H3)
    as (H4 & _).
  exact (conj H1 (conj H2 (conj H3 H4))).
Defined.

(** * The steps of one call *)

Lemma run_cons_step (W W1 : Station) tid raises sched :
  step W tid raises = Some W1 -> run ((tid, raises) :: sched) W = run sched W1.
Proof. simpl. by intros ->. Qed.

Lemma lookup_insert_same (ths : list thread) (tid : nat) (t t' : thread) :
  ths !! tid = Some t -> <[tid := t']> ths !! tid = Some t'.
Proof. intros Ht. apply list_lookup_insert_eq. by eapply lookup_lt_Some. Qed.

Ltac one_step :=
  erewrite run_cons_step;
  [| eapply step_intro;
     [ simpl; eauto 10 using lookup_insert_same
     | simpl; unfold acquire, release; simpl;
       repeat match goal with
         | H : 0 < ?x |- context [0 <? ?x] =>
             rewrite (proj2 (Z.ltb_lt 0 x) H); simpl
         | H : queue ?q = _ |- context [queue ?q] => rewrite H; simpl
         end;
       reflexivity ] ].


Lemma actions_of_snoc tid tr i a :
  actions_of tid (tr ++ [(i, a)])
  = actions_of tid tr ++ (if (i =? tid)%nat then [a] else []).
Proof.
  unfold actions_of. rewrite omap_app. simpl. by destruct (i =? tid)%nat.
Qed.

Lemma call_order_inv_step W W' tid raises :
  head_inv W -> call_order_inv W -> step W tid raises = Some W' ->
  call_order_inv W'.
Proof.
  intros Hh Hc (t & a & t' & q' & p' & Ht & Hs & ->)%step_inv.
  intros i u Hi. simpl in *. rewrite actions_of_snoc.
  destruct (lookup_insert_cases _ _ _ _ _ _ Ht Hi) as [[-> Heq]|[Hne Hi']].
  - destruct (Hc _ _ Ht) as (earlier & size & Hacts).
    rewrite Nat.eqb_refl, Hacts. subst u.
    thread_cases t Hs; simpl in *.
    all: try (exists earlier, size; rewrite <- app_assoc; reflexivity).
    all: try (eexists _, 0%nat; simpl; symmetry; apply app_nil_r).
    + eexists earlier, _. rewrite <- app_assoc. reflexivity.
    + destruct (Hh _ _ _ Ht) as [rest Hrest].
      assert (c = car) as -> by congruence.
      exists earlier, size. rewrite <- app_assoc. reflexivity.
    + eexists earlier, _. rewrite <- app_assoc. reflexivity.
  - destruct (Hc _ _ Hi') as (earlier & size & Hacts).
    destruct (Nat.eqb_spec tid i); [congruence|].
    exists earlier, size. by rewrite app_nil_r.
Qed.

Lemma call_order_inv_run N q p ths sched W :
  N <= INT_MAX -> SharedQueue_new N = Returns q -> forallb fresh ths = true ->
  run sched (start q p ths) = Some W -> call_order_inv W.
Proof.
  intros HN Hq Hf Hrun.
  cut ((queue_inv N W /\ head_inv W) /\ call_order_inv W); [tauto|].
  eapply (run_invariant
            (fun W => (queue_inv N W /\ head_inv W) /\ call_order_inv W));
    [| |exact Hrun].
  - intros ? ? ? ? [[] ?] ?. split; [split|].
    + by eapply queue_inv_step.
    + by eapply head_inv_step.
    + by eapply call_order_inv_step.
  - split; [split|].
    + by apply queue_inv_start.
    + eapply (head_inv_run N q p ths []); eauto.
    + intros i t Hi. simpl in *. exists [], 0%nat.
      apply list_elem_of_lookup_2, list_elem_of_In in Hi.
      rewrite forallb_forall in Hf. apply Hf in Hi.
      destruct t as [? [|? []]|? [[]| | | | | | | |]]; simpl in *; done.
Qed.

(** C3: a call of [addCar(car)] that does not have to wait performs, in
    this order: acquire [empty], acquire [mutex], push [car] at the back
    of the FIFO, print the queued message with the size after the push,
    release [mutex], release [full].  A call of [removeCar(pumpId)] that
    does not have to wait performs, in this order: acquire [full],
    acquire [mutex], read the front, pop it, print the dequeued message
    with [pumpId] and the size after the pop, release [mutex], release
    [empty], return the car read.  Under any interleaving with other
    threads, the latest actions of a thread inside [addCar] are the
    statements of [addCar] before the one it is at, in that order; the
    step that ends [addCar] completes the sequence; and a thread that has
    returned from [removeCar] has just done the whole sequence of
    [removeCar]. *)
Theorem addCar_removeCar_step_sequences (N : Z) (q : SharedQueue)
  (p : Semaphore) (ths : list thread) (sched : list (nat * bool))
  (W : Station) (tid : nat) :
  SharedQueue_new N = Returns q ->
  N <= INT_MAX ->
  forallb fresh ths = true ->
  run sched (start q p ths) = Some W ->
  (forall todo car,
     threads W !! tid = Some (Producer todo (C_addCar car A_empty_acquire)) ->
     0 < slots (empty (squeue W)) ->
     0 < slots (mutex (squeue W)) ->
     exists W',
       run (solo tid 6) W = Some W' /\
       trace W' = trace W ++
         map (pair tid) (addCar_actions car (S (length (queue (squeue W))))) /\
       threads W' !! tid = Some (Producer todo C_arrived) /\
       queue (squeue W') = queue (squeue W) ++ [car]) /\
  (forall pumpId car rest,
     threads W !! tid = Some (Pump pumpId (P_removeCar R_full_acquire)) ->
     0 < slots (full (squeue W)) ->
     0 < slots (mutex (squeue W)) ->
     queue (squeue W) = car :: rest ->
     exists W',
       run (solo tid 8) W = Some W' /\
       trace W' = trace W ++
         map (pair tid) (removeCar_actions pumpId car (length rest)) /\
       threads W' !! tid = Some (Pump pumpId (P_pumps_acquire car)) /\
       queue (squeue W') = rest) /\
  (forall todo car pc,
     threads W !! tid = Some (Producer todo (C_addCar car pc)) ->
     exists earlier size,
       actions_of tid (trace W)
       = earlier ++ take (add_index pc) (addCar_actions car size)) /\
  (forall todo car raises W',
     threads W !! tid = Some (Producer todo (C_addCar car A_full_release)) ->
     step W tid raises = Some W' ->
     exists earlier size,
       actions_of tid (trace W') = earlier ++ addCar_actions car size) /\
  (forall pumpId car,
     threads W !! tid = Some (Pump pumpId (P_pumps_acquire car)) ->
     exists earlier size,
       actions_of tid (trace W) = earlier ++ removeCar_actions pumpId car size).
Proof.
  intros HNq HN Hfresh Hrun.
  pose proof (call_order_inv_run N q p ths sched W HN HNq Hfresh Hrun) as Hc.
  split; [|split; [|split; [|split]]].
  - intros todo car Ht He Hm. eexists. unfold solo. simpl replicate.
    do 6 one_step. simpl. split; [reflexivity|]. simpl.
    rewrite <- !app_assoc, length_app, Nat.add_1_r. simpl.
    split; [reflexivity|]. split; [eauto 10 using lookup_insert_same|done].
  - intros pumpId car rest Ht Hf Hm Hq. eexists. unfold solo. simpl replicate.
    do 8 one_step. simpl. split; [reflexivity|]. simpl.
    rewrite <- !app_assoc. simpl.
    split; [reflexivity|]. split; [eauto 10 using lookup_insert_same|done].
  - intros todo car pc Ht. exact (Hc _ _ Ht).
  - intros todo car raises W' Ht Hstep.
    destruct (Hc _ _ Ht) as (earlier & size & Hacts).
    apply step_inv in Hstep as (t & a & t' & q' & p' & Ht' & Hs & ->).
    rewrite Ht in Ht'. simplify_eq. simpl in Hs. unfold release in Hs.
    simpl in Hs. simplify_eq. simpl.
    rewrite actions_of_snoc, Nat.eqb_refl, Hacts, <- app_assoc.
    by exists earlier, size.
  - intros pumpId car Ht. exact (Hc _ _ Ht).
Qed.

Lemma addCar_removeCar_step_sequences_witness :
  SharedQueue_new 2 = Returns queue2 /\
  2 <= INT_MAX /\
  forallb fresh one_car_one_pump = true /\
  run (solo 0 7) (start queue2 pumps1 one_car_one_pump)
  = Some (after (start queue2 pumps1 one_car_one_pump) (solo 0 7)) /\
  threads (after (start queue2 pumps1 one_car_one_pump) (solo 0 7)) !! 1%nat
  = Some (Pump 1 (P_removeCar R_full_acquire)) /\
  0 < slots (full (squeue (after (start queue2 pumps1 one_car_one_pump) (solo 0 7)))) /\
  0 < slots (mutex (squeue (after (start queue2 pumps1 one_car_one_pump) (solo 0 7)))) /\
  queue (squeue (after (start queue2 pumps1 one_car_one_pump) (solo 0 7))) = [car1] /\
  exists W',
    run (solo 1 8) (after (start queue2 pumps1 one_car_one_pump) (solo 0 7))
    = Some W' /\
    trace W' = trace (after (start queue2 pumps1 one_car_one_pump) (solo 0 7)) ++
      map (pair 1%nat) (removeCar_actions 1 car1 0).
Proof.
  assert (SharedQueue_new 2 = Returns queue2) as H1 by (vm_compute; reflexivity).
  assert (2 <= INT_MAX) as H2 by (unfold INT_MAX; lia).
  assert (forallb fresh one_car_one_pump = true) as H3 by (vm_compute; reflexivity).
  assert (run (solo 0 7) (start queue2 pumps1 one_car_one_pump)
          = Some (after (start queue2 pumps1 one_car_one_pump) (solo 0 7)))
    as H4 by (vm_compute; reflexivity).
  assert (threads (after (start queue2 pumps1 one_car_one_pump) (solo 0 7)) !! 1%nat
          = Some (Pump 1 (P_removeCar R_full_acquire)))
    as H5 by (vm_compute; reflexivity).
  assert (0 < slots (full (squeue
            (after (start queue2 pumps1 one_car_one_pump) (solo 0 7)))))
    as H6 by (vm_compute; reflexivity).
  assert (0 < slots (mutex (squeue
            (after (start queue2 pumps1 one_car_one_pump) (solo 0 7)))))
    as H7 by (vm_compute; reflexivity).
  assert (queue (squeue (after (start queue2 pumps1 one_car_one_pump) (solo 0 7)))
          = [car1]) as H8 by (vm_compute; reflexivity).
  destruct (addCar_removeCar_step_sequences 2 _ _ _ _ _ 1%nat H1 H2 H3 H4)
    as (_ & Hrem & _).
  destruct (Hrem 1 car1 [] H5 H6 H7 H8) as (W' & Hrun & Htr & _).
  repeat (split; [assumption|]). exists W'. split; assumption.
Defined.

(** * The bay pool *)

Lemma exited_stays (W W' : Station) (tid : nat) (pumpId : Z)
  (sched : list (nat * bool)) :
  threads W !! tid = Some (Pump pumpId P_exit) ->
  run sched W = Some W' ->
  threads W' !! tid = Some (Pump pumpId P_exit).
Proof.
  intros Ht Hrun.
  eapply (run_invariant (fun W => threads W !! tid = Some (Pump pumpId P_exit)));
    [|exact Ht|exact Hrun].
  clear. intros W i raises W' Ht (t & a & t' & q' & p' & Hi & Hs & ->)%step_inv.
  simpl. destruct (decide (i = tid)) as [->|Hne].
  - rewrite Ht in Hi. simplify_eq.
  - by rewrite list_lookup_insert_ne.
Qed.

(** C5 (amended): a pump thread has released the bay pool exactly as
    often as it has acquired it, but for the one bay it holds between
    [pumps.acquire()] and [pumps.release()]; so every acquire has been
    followed by exactly one release whenever the thread waits for the
    next car or for a bay.  When the service step at line 142 does not
    raise, the thread goes on to [pumps.release()] without waiting and is
    back at [removeCar].  When it raises, the handler around the loop
    prints the interruption and [pump_routine] returns: the bay pool is
    left as it was, the thread never runs again and its acquire stays
    without a release. *)
Theorem bay_release_pairs_acquire (q : SharedQueue) (p : Semaphore)
  (ths : list thread) (sched : list (nat * bool)) (W : Station) (tid : nat)
  (pumpId : Z) (pc : pump_pc) :
  forallb fresh ths = true ->
  run sched (start q p ths) = Some W ->
  threads W !! tid = Some (Pump pumpId pc) ->
  occurrences is_bay_acquire tid (trace W)
  = occurrences is_bay_release tid (trace W) + in_bay (Pump pumpId pc) /\
  (forall car, pc = P_sleep car ->
     exists W',
       run (solo tid 4) W = Some W' /\
       trace W' = trace W ++
         [(tid, ASleep); (tid, APrint (ServiceFinished pumpId (carName car)));
          (tid, APrint (BayFreed pumpId pumpId)); (tid, ARelease SPumps)] /\
       threads W' !! tid = Some (Pump pumpId (P_removeCar R_full_acquire)) /\
       occurrences is_bay_acquire tid (trace W')
       = occurrences is_bay_release tid (trace W')) /\
  (forall car, pc = P_sleep car ->
     exists W',
       run [(tid, true); (tid, false)] W = Some W' /\
       trace W' = trace W ++ [(tid, ARaise); (tid, APrint (Interrupted pumpId))] /\
       pumps W' = pumps W /\
       forall sched' W'',
         run sched' W' = Some W'' ->
         threads W'' !! tid = Some (Pump pumpId P_exit) /\
         occurrences is_bay_acquire tid (trace W'')
         = occurrences is_bay_release tid (trace W'') + 1).
Proof.
  intros Hf Hrun Ht.
  pose proof (bay_paired_run q p ths sched W Hf Hrun) as Hp.
  split; [exact (Hp _ _ Ht)|]. split.
  - intros car ->.
    assert (exists W', run (solo tid 4) W = Some W' /\
              trace W' = trace W ++
                [(tid, ASleep); (tid, APrint (ServiceFinished pumpId (carName car)));
                 (tid, APrint (BayFreed pumpId pumpId)); (tid, ARelease SPumps)] /\
              threads W' !! tid = Some (Pump pumpId (P_removeCar R_full_acquire)))
      as (W' & Hrun' & Htr & Ht').
    { eexists. unfold solo. simpl replicate. do 4 one_step. simpl.
      split; [reflexivity|]. simpl. rewrite <- !app_assoc. simpl.
      split; [reflexivity|]. eauto 10 using lookup_insert_same. }
    exists W'. split; [done|]. split; [done|]. split; [done|].
    assert (run (sched ++ solo tid 4) (start q p ths) = Some W') as Hall.
    { rewrite run_app, Hrun. exact Hrun'. }
    pose proof (bay_paired_run q p ths _ W' Hf Hall _ _ Ht') as Hp'.
    simpl in Hp'. lia.
  - intros car ->.
    assert (exists W', run [(tid, true); (tid, false)] W = Some W' /\
              trace W' = trace W ++ [(tid, ARaise); (tid, APrint (Interrupted pumpId))] /\
              pumps W' = pumps W /\
              threads W' !! tid = Some (Pump pumpId P_exit))
      as (W' & Hrun' & Htr & Hpu & Ht').
    { eexists. do 2 one_step. simpl.
      split; [reflexivity|]. simpl. rewrite <- !app_assoc. simpl.
      split; [reflexivity|]. split; [reflexivity|].
      eauto 10 using lookup_insert_same. }
    exists W'. split; [done|]. split; [done|]. split; [done|].
    intros sched' W'' Hrun''.
    pose proof (exited_stays _ _ _ _ _ Ht' Hrun'') as Ht''.
    split; [done|].
    assert (run ((sched ++ [(tid, true); (tid, false)]) ++ sched') (start q p ths)
            = Some W'') as Hall.
    { rewrite !run_app, Hrun.
      change (Some W ≫= run [(tid, true); (tid, false)])
        with (run [(tid, true); (tid, false)] W).
      rewrite Hrun'. exact Hrun''. }
    exact (bay_paired_run q p ths _ W'' Hf Hall _ _ Ht'').
Qed.

Lemma bay_release_pairs_acquire_witness :
  forallb fresh one_car_one_pump = true /\
  run (solo 0 7 ++ solo 1 10) (start queue2 pumps1 one_car_one_pump)
  = Some (after (start queue2 pumps1 one_car_one_pump) (solo 0 7 ++ solo 1 10)) /\
  threads (after (start queue2 pumps1 one_car_one_pump) (solo 0 7 ++ solo 1 10))
    !! 1%nat = Some (Pump 1 (P_sleep car1)) /\
  occurrences is_bay_acquire 1
    (trace (after (start queue2 pumps1 one_car_one_pump) (solo 0 7 ++ solo 1 10)))
  = occurrences is_bay_release 1
      (trace (after (start queue2 pumps1 one_car_one_pump) (solo 0 7 ++ solo 1 10)))
    + 1.
Proof.
  assert (forallb fresh one_car_one_pump = true) as H1 by (vm_compute; reflexivity).
  assert (run (solo 0 7 ++ solo 1 10) (start queue2 pumps1 one_car_one_pump)
          = Some (after (start queue2 pumps1 one_car_one_pump)
                    (solo 0 7 ++ solo 1 10))) as H2 by (vm_compute; reflexivity).
  assert (threads (after (start queue2 pumps1 one_car_one_pump)
                     (solo 0 7 ++ solo 1 10))
            !! 1%nat = Some (Pump 1 (P_sleep car1))) as H3 by (vm_compute; reflexivity).
  pose proof (bay_release_pairs_acquire _ _ _ _ _ _ _ _ H1 H2 H3) as (H4 & _).
  exact (conj H1 (conj H2 (conj H3 H4))).
Defined.

(** C5 (as stated) fails: when the service step raises, the thread
    catches the exception outside its loop and returns.  It has acquired
    the bay pool once and released it never, the pool is left with no
    permit, and the thread takes no further step. *)
Lemma bay_not_released_when_service_raises :
  exists W,
    station_after 1 1 one_car_one_pump
      (solo 0 7 ++ solo 1 10 ++ [(1%nat, true); (1%nat, false)]) = Some W /\
    threads W !! 1%nat = Some (Pump 1 P_exit) /\
    occurrences is_bay_acquire 1 (trace W) = 1 /\
    occurrences is_bay_release 1 (trace W) = 0 /\
    slots (pumps W) = 0 /\
    step W 1 false = None /\ step W 1 true = None.
Proof.
  eexists. split; [vm_compute; reflexivity|].
  repeat split; vm_compute; reflexivity.
Qed.

(** * The drain monitor *)

Lemma tsum_zero_In (f : thread -> Z) (l : list thread) :
  (forall t, In t l -> f t = 0) -> tsum f l = 0.
Proof.
  induction l as [|t l IH]; simpl; [done|]. intros H.
  rewrite (H t) by auto. rewrite IH; [lia|]. intros u Hu. apply H. auto.
Qed.

Lemma drained_spec (B : Z) (W : Station) :
  drained B W = true ->
  slots (full (squeue W)) = 0 /\ slots (pumps W) = B.
Proof.
  unfold drained, getWaitingCarCount, availablePermits. simpl.
  intros [H1 H2]%andb_prop. apply Z.eqb_eq in H1, H2. done.
Qed.

Lemma unserved_le t : unserved t <= in_transit t + in_bay t.
Proof. destruct t as [|? [[]| | | | | | | |]]; simpl; lia. Qed.
Lemma unpopped_le_transit t : taken_unpopped t <= in_transit t.
Proof. destruct t as [|? [[]| | | | | | | |]]; simpl; lia. Qed.

(** A station in which the car threads are joined, no car waits, every
    bay is free and no pump is on its way from the queue to a bay, has no
    thread that can move. *)
Lemma drained_station_stuck (N B : Z) (W : Station) :
  queue_inv N W -> bay_inv B W ->
  arrivals_joined W = true -> drained B W = true ->
  no_client_in_transit W = true ->
  forall tid raises, step W tid raises = None.
Proof.
  intros [_ _ _ _ _ _ Hud] [Hb _] Hj [Hfull Hpumps]%drained_spec Ht tid raises.
  apply tsum_zero_forallb in Ht.
  assert (tsum in_bay (threads W) = 0) as Hbay by lia.
  unfold step. destruct (threads W !! tid) as [t|] eqn:Hlook; [|done].
  pose proof (tsum_zero_lookup _ in_bay_nonneg _ _ _ Hbay Hlook) as H1.
  pose proof (tsum_zero_lookup _ in_transit_nonneg _ _ _ Ht Hlook) as H2.
  unfold arrivals_joined in Hj. rewrite forallb_forall in Hj.
  apply list_elem_of_lookup_2, list_elem_of_In in Hlook. apply Hj in Hlook.
  destruct t as [[|] [|? []]|? [[]| | | | | | | |]]; simpl in *; try done.
  unfold acquire. rewrite Hfull. done.
Qed.

Lemma stuck_run (W W' : Station) (sched : list (nat * bool)) :
  (forall tid raises, step W tid raises = None) ->
  run sched W = Some W' -> W' = W.
Proof.
  intros Hstuck. destruct sched as [|[tid r] sched]; simpl.
  - by intros [= <-].
  - by rewrite Hstuck.
Qed.

(** X20: what the loop at lines 208-216 gets right.  Once the car
    threads are joined, if [getWaitingCarCount()] is 0 and
    [pumps.availablePermits()] is the bay count at the same moment, and
    at that moment no pump is between taking its permit of [full] in
    [removeCar] and acquiring its bay, then no thread can move any more:
    both conditions hold at every later point, and every client handed
    to the car threads has been reported as serviced. *)
Theorem drained_is_final_when_no_client_in_transit (N B : Z) (q : SharedQueue)
  (p : Semaphore) (ths : list thread) (sched : list (nat * bool)) (W : Station) :
  SharedQueue_new N = Returns q ->
  Semaphore_new B = Returns p ->
  N <= INT_MAX ->
  B <= INT_MAX ->
  forallb fresh ths = true ->
  run sched (start q p ths) = Some W ->
  arrivals_joined W = true ->
  drained B W = true ->
  no_client_in_transit W = true ->
  forall sched' W',
    run sched' W = Some W' ->
    W' = W /\ drained B W' = true /\ serviced W' = generated ths.
Proof.
  intros Hq Hp HN HB Hf Hrun Hj Hd Ht sched' W' Hrun'.
  pose proof (queue_inv_run N q p ths sched W HN Hq Hf Hrun) as Hqi.
  pose proof (bay_inv_run B q p ths sched W HB Hp Hf Hrun) as Hbi.
  pose proof (count_inv_run q p ths sched W Hf Hrun) as [Hpu Hpo].
  pose proof (fifo_inv_run q p ths sched W (SharedQueue_new_queue _ _ Hq) Hrun)
    as Hfifo.
  assert (W' = W) as ->.
  { eapply stuck_run; [|exact Hrun']. by eapply drained_station_stuck. }
  split; [done|]. split; [done|].
  destruct Hqi as [_ _ _ _ _ Hsz _]. destruct Hbi as [Hb _].
  destruct (drained_spec _ _ Hd) as [Hfull Hpumps].
  pose proof (tsum_zero_forallb _ _ Ht) as Htr.
  unfold arrivals_joined in Hj. rewrite forallb_forall in Hj.
  assert (tsum unpushed (threads W) = 0) as Hun.
  { apply tsum_zero_In. intros t Hin. apply Hj in Hin.
    by destruct t as [[|] [|? []]|]. }
  assert (tsum pushed_unsignalled (threads W) = 0) as Hps.
  { apply tsum_zero_In. intros t Hin. apply Hj in Hin.
    by destruct t as [[|] [|? []]|]. }
  pose proof (tsum_le _ _ (threads W) unpopped_le_transit).
  pose proof (tsum_le _ _ (threads W) unserved_le) as Hle.
  rewrite tsum_plus in Hle.
  pose proof (tsum_nonneg _ taken_unpopped_nonneg (threads W)).
  pose proof (tsum_nonneg _ unserved_nonneg (threads W)).
  unfold fifo_inv in Hfifo. apply (f_equal length) in Hfifo.
  rewrite length_app in Hfifo.
  unfold serviced, size in *. lia.
Qed.

Lemma drained_is_final_when_no_client_in_transit_witness :
  SharedQueue_new 2 = Returns queue2 /\
  Semaphore_new 1 = Returns pumps1 /\
  2 <= INT_MAX /\ 1 <= INT_MAX /\
  forallb fresh one_car_one_pump = true /\
  run (solo 0 7 ++ solo 1 14) (start queue2 pumps1 one_car_one_pump)
  = Some (after (start queue2 pumps1 one_car_one_pump) (solo 0 7 ++ solo 1 14)) /\
  arrivals_joined
    (after (start queue2 pumps1 one_car_one_pump) (solo 0 7 ++ solo 1 14)) = true /\
  drained 1
    (after (start queue2 pumps1 one_car_one_pump) (solo 0 7 ++ solo 1 14)) = true /\
  no_client_in_transit
    (after (start queue2 pumps1 one_car_one_pump) (solo 0 7 ++ solo 1 14)) = true /\
  serviced (after (start queue2 pumps1 one_car_one_pump) (solo 0 7 ++ solo 1 14))
  = generated one_car_one_pump.
Proof.
  assert (SharedQueue_new 2 = Returns queue2) as H1 by (vm_compute; reflexivity).
  assert (Semaphore_new 1 = Returns pumps1) as H2 by (vm_compute; reflexivity).
  assert (2 <= INT_MAX) as H3 by (unfold INT_MAX; lia).
  assert (1 <= INT_MAX) as H4 by (unfold INT_MAX; lia).
  assert (forallb fresh one_car_one_pump = true) as H5 by (vm_compute; reflexivity).
  assert (run (solo 0 7 ++ solo 1 14) (start queue2 pumps1 one_car_one_pump)
          = Some (after (start queue2 pumps1 one_car_one_pump)
                    (solo 0 7 ++ solo 1 14))) as H6 by (vm_compute; reflexivity).
  assert (arrivals_joined
            (after (start queue2 pumps1 one_car_one_pump) (solo 0 7 ++ solo 1 14))
          = true) as H7 by (vm_compute; reflexivity).
  assert (drained 1
            (after (start queue2 pumps1 one_car_one_pump) (solo 0 7 ++ solo 1 14))
          = true) as H8 by (vm_compute; reflexivity).
  assert (no_client_in_transit
            (after (start queue2 pumps1 one_car_one_pump) (solo 0 7 ++ solo 1 14))
          = true) as H9 by (vm_compute; reflexivity).
  pose proof (drained_is_final_when_no_client_in_transit 2 1 _ _ _ _ _
                H1 H2 H3 H4 H5 H6 H7 H8 H9 [] _ eq_refl) as (_ & _ & H10).
  exact (conj H1 (conj H2 (conj H3 (conj H4 (conj H5 (conj H6 (conj H7
           (conj H8 (conj H9 H10))))))))).
Defined.

(** C6: the loop of [main] at lines 207-216, written to "wait until
    queue is empty and all pump bays are free", can be left while a car
    is still to be serviced, and the two conditions it saw together do
    not stay true.  One car, one pump, one bay: when the car thread is
    joined and the pump has only taken its permit of [full] (line 100),
    the sample sees no car waiting and the bay free, so [main] leaves the
    loop and prints "All cars serviced."; yet no car has been serviced
    and Car 1 is still in the queue.  Eight steps of the pump later the
    bay is taken and the same sample is unfavourable. *)
Lemma drained_sample_is_not_final :
  exists W1 W2,
    station_after 1 1 one_car_one_pump (solo 0 7 ++ solo 1 1) = Some W1 /\
    arrivals_joined W1 = true /\
    drained 1 W1 = true /\
    serviced W1 = 0 /\ generated one_car_one_pump = 1 /\
    run (solo 1 8) W1 = Some W2 /\
    drained 1 W2 = false /\
    queue (squeue W1) = [car1].
Proof.
  eexists _, _. split; [vm_compute; reflexivity|].
  split; [vm_compute; reflexivity|]. split; [vm_compute; reflexivity|].
  split; [vm_compute; reflexivity|]. split; [vm_compute; reflexivity|].
  split; [vm_compute; reflexivity|].
  split; vm_compute; reflexivity.
Qed.

(** * Further properties of the queue, the pumps and [main] *)

Lemma tsum_minus (f g : thread -> Z) (l : list thread) :
  tsum (fun t => f t - g t) l = tsum f l - tsum g l.
Proof. induction l as [|t l IH]; simpl; lia. Qed.

Lemma popped_holding_nonneg t : 0 <= popped_holding t.
Proof.
  unfold popped_holding. destruct t as [|? [[]| | | | | | | |]]; simpl; lia.
Qed.

Lemma tsum_pos_lookup (f : thread -> Z) (l : list thread) :
  0 < tsum f l -> exists i t, l !! i = Some t /\ 0 < f t.
Proof.
  induction l as [|x l IH]; simpl; [lia|]. intros H.
  destruct (Z.ltb_spec 0 (f x)).
  - exists 0%nat, x. done.
  - destruct IH as (i & t & Hi & Ht); [lia|]. exists (S i), t. done.
Qed.

(** X1: whatever the number of car and pump threads and however they
    interleave, the cars pushed so far are, in order, the cars popped so
    far followed by the cars in the FIFO: none is lost, duplicated or
    overtaken; and [front()] and [pop()] never run on an empty FIFO. *)
Theorem no_car_lost_or_overtaken (N : Z) (q : SharedQueue) (p : Semaphore)
  (ths : list thread) (sched : list (nat * bool)) (W : Station) :
  SharedQueue_new N = Returns q ->
  N <= INT_MAX ->
  forallb fresh ths = true ->
  run sched (start q p ths) = Some W ->
  pushes (trace W) = pops (trace W) ++ queue (squeue W) /\
  Forall (fun x => x.2 <> AUndefined) (trace W).
Proof.
  intros Hq HN Hf Hrun. split.
  - exact (fifo_inv_run q p ths sched W (SharedQueue_new_queue _ _ Hq) Hrun).
  - exact (defined_trace_run N q p ths sched W HN Hq Hf Hrun).
Qed.

(** X2: mutual exclusion.  Two different threads are never both between
    [mutex.acquire()] and [mutex.release()]. *)
Theorem mutual_exclusion (N : Z) (q : SharedQueue) (p : Semaphore)
  (ths : list thread) (sched : list (nat * bool)) (W : Station)
  (i j : nat) (t u : thread) :
  SharedQueue_new N = Returns q ->
  N <= INT_MAX ->
  forallb fresh ths = true ->
  run sched (start q p ths) = Some W ->
  i <> j ->
  threads W !! i = Some t ->
  threads W !! j = Some u ->
  in_crit t = 0 \/ in_crit u = 0.
Proof.
  intros Hq HN Hf Hrun Hij Hi Hj.
  destruct (queue_inv_run N q p ths sched W HN Hq Hf Hrun) as [Hm Hm0 _ _ _ _ _].
  pose proof (tsum_lookup2_le _ in_crit_nonneg _ _ _ _ _ Hij Hi Hj).
  pose proof (in_crit_nonneg t). pose proof (in_crit_nonneg u).
  assert (in_crit t <= 1) by
    (destruct t as [? [|? []]|? [[]| | | | | | | |]]; simpl; lia).
  lia.
Qed.

(** X3: bay exclusivity.  The pumps that hold a bay and the permits left
    in the pool always add up to the bay count, so at most that many cars
    are in service at once. *)
Theorem bays_never_oversubscribed (B : Z) (q : SharedQueue) (p : Semaphore)
  (ths : list thread) (sched : list (nat * bool)) (W : Station) :
  Semaphore_new B = Returns p ->
  B <= INT_MAX ->
  forallb fresh ths = true ->
  run sched (start q p ths) = Some W ->
  tsum in_bay (threads W) + slots (pumps W) = B /\
  0 <= tsum in_bay (threads W) <= B /\
  0 <= slots (pumps W) <= B.
Proof.
  intros Hp HB Hf Hrun.
  destruct (bay_inv_run B q p ths sched W HB Hp Hf Hrun) as [Hb Hb0].
  pose proof (tsum_nonneg _ in_bay_nonneg (threads W)). lia.
Qed.

(** X4: blocking.  When the FIFO holds as many cars as the capacity,
    [empty] has no permit and a thread at the start of [addCar] cannot
    move; when the FIFO is empty, [full] has no permit and a thread at
    the start of [removeCar] cannot move. *)
Theorem full_queue_blocks_addCar_empty_queue_blocks_removeCar (N : Z)
  (q : SharedQueue) (p : Semaphore) (ths : list thread)
  (sched : list (nat * bool)) (W : Station) (tid : nat) (raises : bool) :
  SharedQueue_new N = Returns q ->
  N <= INT_MAX ->
  forallb fresh ths = true ->
  run sched (start q p ths) = Some W ->
  (size W = N ->
   slots (empty (squeue W)) = 0 /\
   forall todo car,
     threads W !! tid = Some (Producer todo (C_addCar car A_empty_acquire)) ->
     step W tid raises = None) /\
  (size W = 0 ->
   slots (full (squeue W)) = 0 /\
   forall pumpId,
     threads W !! tid = Some (Pump pumpId (P_removeCar R_full_acquire)) ->
     step W tid raises = None).
Proof.
  intros Hq HN Hf Hrun.
  destruct (queue_inv_run N q p ths sched W HN Hq Hf Hrun)
    as [Hm Hm0 Hsl He0 Hf0 Hsz Hud].
  pose proof (tsum_nonneg _ pushed_unsignalled_nonneg (threads W)).
  pose proof (tsum_nonneg _ taken_unpopped_nonneg (threads W)).
  pose proof (tsum_le _ _ (threads W) pushed_le_holds).
  pose proof (tsum_le _ _ (threads W) unpopped_le_holds).
  split; intros Hsize.
  - assert (slots (empty (squeue W)) = 0) as He by lia. split; [done|].
    intros todo car Ht. unfold step. rewrite Ht. simpl.
    unfold acquire. by rewrite He.
  - assert (slots (full (squeue W)) = 0) as Hfu by lia. split; [done|].
    intros pumpId Ht. unfold step. rewrite Ht. simpl.
    unfold acquire. by rewrite Hfu.
Qed.

(** Every car handed to the producers is, at any moment, exactly one of:
    not yet pushed, in the FIFO, held unserviced by a pump, or reported
    as serviced. *)
Lemma car_accounting (q : SharedQueue) (p : Semaphore) (ths : list thread)
  (sched : list (nat * bool)) (W : Station) :
  queue q = [] ->
  forallb fresh ths = true ->
  run sched (start q p ths) = Some W ->
  generated ths
  = tsum unpushed (threads W) + size W + tsum unserved (threads W) + serviced W.
Proof.
  intros Hq Hf Hrun.
  pose proof (count_inv_run q p ths sched W Hf Hrun) as [Hpu Hpo].
  pose proof (fifo_inv_run q p ths sched W Hq Hrun) as Hfifo.
  unfold fifo_inv in Hfifo. apply (f_equal length) in Hfifo.
  rewrite length_app in Hfifo. unfold serviced, size. lia.
Qed.

(** X5: conservation of cars.  At any moment the cars handed to the car
    threads are exactly those not yet pushed, those in the FIFO, those a
    pump has popped and not yet reported as serviced, and those reported
    as serviced; so never more cars are serviced than were generated. *)
Theorem cars_are_conserved (N : Z) (q : SharedQueue) (p : Semaphore)
  (ths : list thread) (sched : list (nat * bool)) (W : Station) :
  SharedQueue_new N = Returns q ->
  forallb fresh ths = true ->
  run sched (start q p ths) = Some W ->
  generated ths
  = tsum unpushed (threads W) + size W + tsum unserved (threads W) + serviced W /\
  0 <= serviced W <= generated ths.
Proof.
  intros Hq Hf Hrun.
  pose proof (car_accounting q p ths sched W (SharedQueue_new_queue _ _ Hq) Hf Hrun)
    as Hacc.
  pose proof (tsum_nonneg _ unpushed_nonneg (threads W)).
  pose proof (tsum_nonneg _ unserved_nonneg (threads W)).
  unfold serviced, size in *. lia.
Qed.

Lemma printed_size_step N W W' tid raises :
  queue_inv N W -> Forall (printed_size_ok N) (trace W) ->
  step W tid raises = Some W' -> Forall (printed_size_ok N) (trace W').
Proof.
  intros [Hm Hm0 Hsl He0 Hf0 Hsz Hud] Hd (t & a & t' & q' & p' & Ht & Hs & ->)%step_inv.
  unfold size in *. simpl. apply Forall_app. split; [done|].
  constructor; [|constructor]. unfold printed_size_ok. simpl.
  pose proof (tsum_lookup_le _ pushed_unsignalled_nonneg _ _ _ Ht).
  pose proof (tsum_lookup_le _ popped_holding_nonneg _ _ _ Ht) as Hph.
  unfold popped_holding in Hph at 2. rewrite tsum_minus in Hph.
  pose proof (tsum_nonneg _ pushed_unsignalled_nonneg (threads W)).
  pose proof (tsum_nonneg _ taken_unpopped_nonneg (threads W)).
  pose proof (tsum_le _ _ (threads W) pushed_le_holds).
  pose proof (tsum_le _ _ (threads W) unpopped_le_holds).
  unfold popped_holding in Hph.
  thread_cases t Hs; simpl in *; try done; lia.
Qed.

(** X6: the sizes the threads print.  "Queue size" in the message of
    [addCar] is always between 1 and the capacity, and in the message of
    [removeCar] between 0 and the capacity less 1. *)
Theorem printed_sizes_in_range (N : Z) (q : SharedQueue) (p : Semaphore)
  (ths : list thread) (sched : list (nat * bool)) (W : Station) :
  SharedQueue_new N = Returns q ->
  N <= INT_MAX ->
  forallb fresh ths = true ->
  run sched (start q p ths) = Some W ->
  Forall (printed_size_ok N) (trace W).
Proof.
  intros Hq HN Hf Hrun.
  cut (queue_inv N W /\ Forall (printed_size_ok N) (trace W)); [tauto|].
  eapply (run_invariant
            (fun W => queue_inv N W /\ Forall (printed_size_ok N) (trace W)));
    [| |exact Hrun].
  - intros ? ? ? ? [] ?.
    split; [by eapply queue_inv_step|by eapply printed_size_step].
  - split; [by apply queue_inv_start|constructor].
Qed.

(** ** The drain monitor as [main] runs it *)

Lemma forallb_lookup (f : thread -> bool) (l : list thread) (i : nat) (t : thread) :
  forallb f l = true -> l !! i = Some t -> f t = true.
Proof.
  rewrite forallb_forall. intros H Hi. apply H, list_elem_of_In.
  by eapply list_elem_of_lookup_2.
Qed.

Lemma forallb_insert (f : thread -> bool) (l : list thread) (i : nat) (t' : thread) :
  forallb f l = true -> f t' = true -> forallb f (<[i := t']> l) = true.
Proof.
  revert i. induction l as [|x l IH]; intros [|i]; simpl; try done.
  - intros [_ Hl]%andb_prop ->. done.
  - intros [Hx Hl]%andb_prop Ht'. rewrite Hx. simpl. by apply IH.
Qed.

Lemma joined_step N W W' tid raises :
  queue_inv N W -> N <= INT_MAX -> arrivals_joined W = true ->
  step W tid raises = Some W' ->
  arrivals_joined W' = true /\
  slots (full (squeue W')) <= slots (full (squeue W)).
Proof.
  intros [Hm Hm0 Hsl He0 Hf0 Hsz Hud] HN Hj
    (t & a & t' & q' & p' & Ht & Hs & ->)%step_inv.
  unfold arrivals_joined in *. simpl.
  pose proof (tsum_nonneg _ holds_empty_nonneg (threads W)).
  pose proof (tsum_nonneg _ holds_full_nonneg (threads W)).
  pose proof (forallb_lookup _ _ _ _ Hj Ht) as Htj. simpl in Htj.
  thread_cases t Hs; simpl in *; try done.
  all: try match goal with
         | H : match ?l with [] => _ | _ => _ end = true |- _ =>
             destruct l; discriminate H
         end.
  all: split; [by apply forallb_insert|].
  all: rewrite ?int_wrap_id by (unfold INT_MIN, INT_MAX in *; lia); lia.
Qed.

Lemma joined_run N W W' sched :
  queue_inv N W -> N <= INT_MAX -> arrivals_joined W = true ->
  run sched W = Some W' ->
  arrivals_joined W' = true /\
  slots (full (squeue W')) <= slots (full (squeue W)).
Proof.
  intros Hqi HN Hj Hrun.
  cut (queue_inv N W' /\ arrivals_joined W' = true /\
       slots (full (squeue W')) <= slots (full (squeue W))); [tauto|].
  eapply (run_invariant
            (fun V => queue_inv N V /\ arrivals_joined V = true /\
                      slots (full (squeue V)) <= slots (full (squeue W))));
    [| |exact Hrun].
  - intros V i r V' (Hq & Hjv & Hle) Hstep.
    destruct (joined_step N V V' i r Hq HN Hjv Hstep) as [Hj' Hle'].
    split; [by eapply queue_inv_step|]. split; [done|lia].
  - split; [done|]. split; [done|lia].
Qed.

(** X7: once the car threads are joined they stay joined, and the value
    of [getWaitingCarCount()] never goes up again. *)
Theorem waiting_count_only_falls_after_join (N : Z) (q : SharedQueue)
  (p : Semaphore) (ths : list thread) (sched sched' : list (nat * bool))
  (W1 W2 : Station) :
  SharedQueue_new N = Returns q ->
  N <= INT_MAX ->
  forallb fresh ths = true ->
  run sched (start q p ths) = Some W1 ->
  arrivals_joined W1 = true ->
  run sched' W1 = Some W2 ->
  arrivals_joined W2 = true /\
  0 <= slots (full (squeue W2)) <= slots (full (squeue W1)).
Proof.
  intros Hq HN Hf Hrun Hj Hrun'.
  pose proof (queue_inv_run N q p ths sched W1 HN Hq Hf Hrun) as Hqi.
  destruct (joined_run N W1 W2 sched' Hqi HN Hj Hrun') as [Hj2 Hle].
  assert (run (sched ++ sched') (start q p ths) = Some W2) as Hall
    by (by rewrite run_app, Hrun).
  destruct (queue_inv_run N q p ths _ W2 HN Hq Hf Hall) as [_ _ _ _ Hf0 _ _].
  split; [done|lia].
Qed.

Lemma joined_weights (W : Station) :
  arrivals_joined W = true ->
  tsum unpushed (threads W) = 0 /\ tsum pushed_unsignalled (threads W) = 0.
Proof.
  unfold arrivals_joined. rewrite forallb_forall. intros Hj.
  split; apply tsum_zero_In; intros t Hin; apply Hj in Hin;
    by destruct t as [[|] [|? []]|].
Qed.

Lemma transit_accounting (l : list thread) :
  tsum in_bay l = 0 ->
  tsum taken_unpopped l + tsum unserved l = tsum in_transit l.
Proof.
  induction l as [|t l IH]; simpl; [lia|]. intros H.
  pose proof (tsum_nonneg _ in_bay_nonneg l). pose proof (in_bay_nonneg t).
  rewrite <- IH by lia.
  destruct t as [? [|? []]|? [[]| | | | | | | |]]; simpl in *; lia.
Qed.

(** X8: what a favourable pass of the drain loop guarantees.  [main]
    reads the waiting count first and the free bays later.  Once the car
    threads are joined, a pass that reads 0 and then [pumpCount] implies
    that both hold together at the second read, that no car is in the
    FIFO or in service, and that every generated car has been serviced
    but for one car per pump that is between its permit of [full] and its
    bay. *)
Theorem favourable_pass_guarantee (N B : Z) (q : SharedQueue) (p : Semaphore)
  (ths : list thread) (sched sched' : list (nat * bool)) (W1 W2 : Station) :
  SharedQueue_new N = Returns q ->
  Semaphore_new B = Returns p ->
  N <= INT_MAX ->
  B <= INT_MAX ->
  forallb fresh ths = true ->
  run sched (start q p ths) = Some W1 ->
  arrivals_joined W1 = true ->
  run sched' W1 = Some W2 ->
  monitor_sample B W1 W2 = true ->
  drained B W2 = true /\
  tsum in_bay (threads W2) = 0 /\
  generated ths = serviced W2 + tsum in_transit (threads W2).
Proof.
  intros Hq Hp HN HB Hf Hrun Hj Hrun' Hs.
  unfold monitor_sample, getWaitingCarCount, availablePermits in Hs. simpl in Hs.
  apply andb_prop in Hs as [Hw Hfree]. apply Z.eqb_eq in Hw, Hfree.
  pose proof (queue_inv_run N q p ths sched W1 HN Hq Hf Hrun) as Hqi.
  destruct (joined_run N W1 W2 sched' Hqi HN Hj Hrun') as [Hj2 Hle].
  assert (run (sched ++ sched') (start q p ths) = Some W2) as Hall
    by (by rewrite run_app, Hrun).
  destruct (queue_inv_run N q p ths _ W2 HN Hq Hf Hall) as [_ _ _ _ Hf0 Hsz _].
  destruct (bay_inv_run B q p ths _ W2 HB Hp Hf Hall) as [Hb _].
  pose proof (car_accounting q p ths _ W2 (SharedQueue_new_queue _ _ Hq) Hf Hall)
    as Hacc.
  destruct (joined_weights W2 Hj2) as [Hun Hps].
  assert (slots (full (squeue W2)) = 0) as Hfull by lia.
  assert (tsum in_bay (threads W2) = 0) as Hbay by lia.
  pose proof (transit_accounting _ Hbay).
  split; [|split; [done|lia]].
  unfold drained, getWaitingCarCount, availablePermits. simpl.
  rewrite Hfull, Hfree. simpl. apply Z.eqb_eq. done.
Qed.

(** ** A pump that was interrupted *)

Lemma interrupted_step W W' tid raises i t :
  threads W !! i = Some t -> interrupted t = 1 ->
  step W tid raises = Some W' ->
  exists t', threads W' !! i = Some t' /\ interrupted t' = 1.
Proof.
  intros Hi Hint (u & a & u' & q' & p' & Ht & Hs & ->)%step_inv. simpl.
  destruct (decide (tid = i)) as [->|Hne].
  - rewrite Hi in Ht. simplify_eq.
    exists u'. split; [by eapply lookup_insert_same|].
    thread_cases u Hs; simpl in *; done.
  - exists t. by rewrite list_lookup_insert_ne.
Qed.

Lemma interrupted_run W W' sched i t :
  threads W !! i = Some t -> interrupted t = 1 ->
  run sched W = Some W' ->
  exists t', threads W' !! i = Some t' /\ interrupted t' = 1.
Proof.
  intros Hi Hint Hrun.
  eapply (run_invariant
            (fun V => exists t', threads V !! i = Some t' /\ interrupted t' = 1));
    [|by eauto|exact Hrun].
  intros V j r V' (t' & Ht' & Hint') Hstep. by eapply interrupted_step.
Qed.

Lemma interrupted_in_bay t : interrupted t <= in_bay t.
Proof. destruct t as [|? []]; simpl; lia. Qed.

(** X9: a service step that raises is never made up for.  Once a pump has
    left its loop through the handler, its bay stays taken, so the sample
    of the drain loop is unfavourable at every later point: [main] polls
    for ever. *)
Theorem interrupted_pump_prevents_drain (B : Z) (q : SharedQueue)
  (p : Semaphore) (ths : list thread) (sched sched' : list (nat * bool))
  (W W' : Station) (i : nat) (t : thread) :
  Semaphore_new B = Returns p ->
  B <= INT_MAX ->
  forallb fresh ths = true ->
  run sched (start q p ths) = Some W ->
  threads W !! i = Some t ->
  interrupted t = 1 ->
  run sched' W = Some W' ->
  slots (pumps W') < B /\ drained B W' = false.
Proof.
  intros Hp HB Hf Hrun Hi Hint Hrun'.
  destruct (interrupted_run W W' sched' i t Hi Hint Hrun') as (t' & Hi' & Hint').
  assert (run (sched ++ sched') (start q p ths) = Some W') as Hall
    by (by rewrite run_app, Hrun).
  destruct (bay_inv_run B q p ths _ W' HB Hp Hf Hall) as [Hb _].
  pose proof (tsum_lookup_le _ in_bay_nonneg _ _ _ Hi').
  pose proof (interrupted_in_bay t').
  assert (slots (pumps W') < B) as Hlt by lia. split; [done|].
  unfold drained, getWaitingCarCount, availablePermits. simpl.
  apply andb_false_iff. right. apply Z.eqb_neq. lia.
Qed.

(** ** The station comes to rest, and only when the work is done *)

Lemma steps_left_nonneg t : 0 <= steps_left t.
Proof.
  destruct t as [? [|? []]|? [[]| | | | | | | |]]; simpl; lia.
Qed.

Lemma work_left_step N W W' tid raises :
  queue_inv N W -> N <= INT_MAX -> step W tid raises = Some W' ->
  work_left W' + 1 <= work_left W.
Proof.
  intros [Hm Hm0 Hsl He0 Hf0 Hsz Hud] HN
    (t & a & t' & q' & p' & Ht & Hs & ->)%step_inv.
  unfold work_left. simpl.
  pose proof (tsum_nonneg _ holds_empty_nonneg (threads W)).
  pose proof (tsum_nonneg _ holds_full_nonneg (threads W)).
  pose proof (tsum_lookup_le _ holds_empty_nonneg _ _ _ Ht).
  rewrite (tsum_insert _ _ _ _ _ Ht).
  thread_cases t Hs; simpl in *;
    rewrite ?int_wrap_id by (unfold INT_MIN, INT_MAX in *; lia); lia.
Qed.

Lemma trace_length_step W W' tid raises :
  step W tid raises = Some W' -> length (trace W') = S (length (trace W)).
Proof.
  intros (t & a & t' & q' & p' & Ht & Hs & ->)%step_inv. simpl.
  rewrite length_app. simpl. lia.
Qed.

Lemma trace_length_run sched W W' :
  run sched W = Some W' ->
  length (trace W') = (length (trace W) + length sched)%nat.
Proof.
  revert W. induction sched as [|[tid r] sched IH]; intros W Hrun; simpl in *.
  - simplify_eq. lia.
  - destruct (step W tid r) as [W1|] eqn:Hs; [|done].
    rewrite (IH _ Hrun), (trace_length_step _ _ _ _ Hs). lia.
Qed.

Lemma fresh_work (ths : list thread) :
  forallb fresh ths = true -> tsum steps_left ths = 21 * generated ths.
Proof.
  unfold generated. induction ths as [|t ths IH]; simpl; [done|].
  intros [Ht Hths]%andb_prop. rewrite (IH Hths).
  destruct t as [? [|? []]|? [[]| | | | | | | |]]; simpl in *; try discriminate; lia.
Qed.

Lemma run_work_bound (N : Z) (q : SharedQueue) (p : Semaphore)
  (ths : list thread) (sched : list (nat * bool)) (W : Station) :
  SharedQueue_new N = Returns q ->
  N <= INT_MAX ->
  forallb fresh ths = true ->
  run sched (start q p ths) = Some W ->
  Z.of_nat (length sched) + work_left W <= 21 * generated ths /\
  0 <= work_left W /\
  Z.of_nat (length sched) <= 21 * generated ths.
Proof.
  intros Hq HN Hf Hrun.
  assert (queue_inv N W /\
          Z.of_nat (length (trace W)) + work_left W <= 21 * generated ths)
    as [Hqi Hwork].
  { eapply (run_invariant
              (fun V => queue_inv N V /\
                 Z.of_nat (length (trace V)) + work_left V <= 21 * generated ths));
      [| |exact Hrun].
    - intros V i r V' [Hqv Hv] Hstep. split; [by eapply queue_inv_step|].
      pose proof (work_left_step N V V' i r Hqv HN Hstep).
      rewrite (trace_length_step _ _ _ _ Hstep). lia.
    - split; [by apply queue_inv_start|].
      unfold work_left. simpl. rewrite (fresh_work _ Hf).
      unfold SharedQueue_new, Semaphore_new in Hq.
      destruct (N <? 0); simpl in Hq; [done|]. simplify_eq. simpl. lia. }
  rewrite (trace_length_run _ _ _ Hrun) in Hwork. simpl in Hwork.
  destruct Hqi as [_ _ _ _ Hf0 _ _].
  pose proof (tsum_nonneg _ steps_left_nonneg (threads W)).
  unfold work_left in *. lia.
Qed.

(** X10: every run ends.  Whatever the interleaving, the threads of a
    station take at most 21 steps for each car handed to the car
    threads; what is left to do shrinks with every step. *)
Theorem every_run_is_bounded (N : Z) (q : SharedQueue) (p : Semaphore)
  (ths : list thread) (sched : list (nat * bool)) (W : Station) :
  SharedQueue_new N = Returns q ->
  N <= INT_MAX ->
  forallb fresh ths = true ->
  run sched (start q p ths) = Some W ->
  Z.of_nat (length sched) + work_left W <= 21 * generated ths /\
  0 <= work_left W /\
  Z.of_nat (length sched) <= 21 * generated ths.
Proof. apply run_work_bound. Qed.

Lemma stuck_thread (W : Station) (i : nat) (t : thread) (raises : bool) :
  stuck W -> threads W !! i = Some t ->
  thread_step raises t (squeue W) (pumps W) = None.
Proof.
  intros Hs Hi. specialize (Hs i raises). unfold step in Hs. rewrite Hi in Hs.
  by destruct (thread_step raises t (squeue W) (pumps W)) as [[[[]]]|].
Qed.

Lemma is_pump_nonneg t : 0 <= is_pump t.
Proof. destruct t; simpl; lia. Qed.
Lemma interrupted_nonneg t : 0 <= interrupted t.
Proof. destruct t as [|? []]; simpl; lia. Qed.

Lemma is_pump_run sched W W' :
  run sched W = Some W' -> tsum is_pump (threads W') = tsum is_pump (threads W).
Proof.
  intros Hrun.
  eapply (run_invariant
            (fun V => tsum is_pump (threads V) = tsum is_pump (threads W)));
    [|done|exact Hrun].
  intros V i r V' HV (t & a & t' & q' & p' & Ht & Hs & ->)%step_inv. simpl.
  rewrite (tsum_insert _ _ _ _ _ Ht), HV.
  thread_cases t Hs; simpl; lia.
Qed.

Ltac live_thread Hnone :=
  simpl in Hnone; unfold acquire, release in Hnone; simpl in Hnone;
  repeat match type of Hnone with
    | context [0 <? ?x] => destruct (Z.ltb_spec 0 x); simpl in Hnone
    | context [match ?l with [] => _ | _ :: _ => _ end] =>
        destruct l; simpl in Hnone
    end;
  try discriminate.

(** X11: no deadlock.  With room for at least one car, at least one bay
    and at least one pump thread, and no pump interrupted, the station
    can come to a state in which no thread can move only when the car
    threads have finished, no car waits, every bay is free and every
    generated car has been serviced. *)
Theorem rest_only_when_all_cars_are_serviced (N B : Z) (q : SharedQueue)
  (p : Semaphore) (ths : list thread) (sched : list (nat * bool)) (W : Station) :
  SharedQueue_new N = Returns q ->
  Semaphore_new B = Returns p ->
  1 <= N <= INT_MAX ->
  1 <= B <= INT_MAX ->
  forallb fresh ths = true ->
  0 < tsum is_pump ths ->
  run sched (start q p ths) = Some W ->
  tsum interrupted (threads W) = 0 ->
  stuck W ->
  arrivals_joined W = true /\
  drained B W = true /\
  serviced W = generated ths.
Proof.
  intros Hq Hp [HN1 HN] [HB1 HB] Hf Hpump Hrun Hint Hstuck.
  pose proof (queue_inv_run N q p ths sched W HN Hq Hf Hrun)
    as [Hm Hm0 Hsl He0 Hf0 Hsz Hud].
  pose proof (bay_inv_run B q p ths sched W HB Hp Hf Hrun) as [Hb Hb0].
  pose proof (car_accounting q p ths sched W (SharedQueue_new_queue _ _ Hq) Hf Hrun)
    as Hacc.
  pose proof (is_pump_run _ _ _ Hrun) as Hpr. simpl in Hpr.
  rewrite <- Hpr in Hpump.
  assert (tsum in_crit (threads W) = 0) as Hcrit.
  { pose proof (tsum_nonneg _ in_crit_nonneg (threads W)).
    destruct (Z.ltb_spec 0 (tsum in_crit (threads W))) as [Hpos|]; [|lia].
    apply tsum_pos_lookup in Hpos as (i & t & Hi & Ht).
    pose proof (stuck_thread W i t false Hstuck Hi) as Hnone.
    pose proof (tsum_zero_lookup _ at_undefined_nonneg _ _ _ Hud Hi) as Hu.
    destruct t as [? [|? []]|? [[]| | | | | | | |]]; simpl in Ht, Hu; try lia;
      live_thread Hnone. }
  assert (tsum in_bay (threads W) = 0) as Hbay.
  { pose proof (tsum_nonneg _ in_bay_nonneg (threads W)).
    destruct (Z.ltb_spec 0 (tsum in_bay (threads W))) as [Hpos|]; [|lia].
    apply tsum_pos_lookup in Hpos as (i & t & Hi & Ht).
    pose proof (stuck_thread W i t false Hstuck Hi) as Hnone.
    pose proof (tsum_zero_lookup _ interrupted_nonneg _ _ _ Hint Hi) as Hu.
    destruct t as [? [|? []]|? [[]| | | | | | | |]]; simpl in Ht, Hu; try lia;
      live_thread Hnone. }
  assert (forall i t, threads W !! i = Some t ->
            holds_empty t = 0 /\ holds_full t = 0 /\ unserved t = 0 /\
            (0 < is_pump t -> slots (full (squeue W)) <= 0) /\
            (0 < unpushed t -> slots (empty (squeue W)) <= 0) /\
            (unpushed t = 0 ->
             match t with
             | Producer [] C_arrived => true
             | Producer _ _ => false
             | Pump _ _ => true
             end = true)) as Hrest.
  { intros i t Hi.
    pose proof (stuck_thread W i t false Hstuck Hi) as Hnone.
    pose proof (tsum_zero_lookup _ at_undefined_nonneg _ _ _ Hud Hi) as Hu.
    pose proof (tsum_zero_lookup _ interrupted_nonneg _ _ _ Hint Hi) as Hi1.
    pose proof (tsum_zero_lookup _ in_crit_nonneg _ _ _ Hcrit Hi) as Hi2.
    pose proof (tsum_zero_lookup _ in_bay_nonneg _ _ _ Hbay Hi) as Hi3.
    destruct t as [? [|? []]|? [[]| | | | | | | |]];
      simpl in Hu, Hi1, Hi2, Hi3; try lia;
      live_thread Hnone; simpl; repeat split; try done; try lia;
      try (rewrite Nat2Z.inj_succ; lia). }
  assert (tsum holds_empty (threads W) = 0) as Hhe.
  { apply tsum_zero_In. intros t Hin.
    apply list_elem_of_In, list_elem_of_lookup_1 in Hin as [i Hi].
    by destruct (Hrest i t Hi) as (? & _). }
  assert (tsum holds_full (threads W) = 0) as Hhf.
  { apply tsum_zero_In. intros t Hin.
    apply list_elem_of_In, list_elem_of_lookup_1 in Hin as [i Hi].
    by destruct (Hrest i t Hi) as (_ & ? & _). }
  assert (tsum unserved (threads W) = 0) as Hus.
  { apply tsum_zero_In. intros t Hin.
    apply list_elem_of_In, list_elem_of_lookup_1 in Hin as [i Hi].
    by destruct (Hrest i t Hi) as (_ & _ & ? & _). }
  assert (slots (full (squeue W)) = 0) as Hfull.
  { apply tsum_pos_lookup in Hpump as (i & t & Hi & Ht).
    destruct (Hrest i t Hi) as (_ & _ & _ & Hfu & _). specialize (Hfu Ht). lia. }
  assert (tsum unpushed (threads W) = 0) as Hun.
  { apply tsum_zero_In. intros t Hin.
    apply list_elem_of_In, list_elem_of_lookup_1 in Hin as [i Hi].
    destruct (Hrest i t Hi) as (_ & _ & _ & _ & Hem & _).
    pose proof (unpushed_nonneg t).
    destruct (Z.ltb_spec 0 (unpushed t)) as [Hpos|]; [|lia].
    specialize (Hem Hpos). lia. }
  pose proof (tsum_le _ _ (threads W) pushed_le_holds).
  pose proof (tsum_le _ _ (threads W) unpopped_le_holds).
  pose proof (tsum_nonneg _ pushed_unsignalled_nonneg (threads W)).
  pose proof (tsum_nonneg _ taken_unpopped_nonneg (threads W)).
  split; [|split].
  - unfold arrivals_joined. apply forallb_forall. intros t Hin.
    apply list_elem_of_In, list_elem_of_lookup_1 in Hin as [i Hi].
    destruct (Hrest i t Hi) as (_ & _ & _ & _ & _ & Hj). apply Hj.
    eapply (tsum_zero_lookup _ unpushed_nonneg); eauto.
  - unfold drained, getWaitingCarCount, availablePermits. simpl.
    rewrite Hfull. simpl. apply Z.eqb_eq. lia.
  - unfold size in *. lia.
Qed.

(** ** Cars are serviced in the order of arrival *)

Lemma served_inv_step W W' tid raises :
  served_inv W -> step W tid raises = Some W' -> served_inv W'.
Proof.
  intros (todo & cpc & id & ppc & Hths & Hserved)
    (t & a & t' & q' & p' & Ht & Hs & ->)%step_inv.
  unfold served_inv; simpl. rewrite returns_snoc, finishes_snoc.
  rewrite Hths in Ht |- *.
  thread_cases t Hs; destruct tid as [|[|tid]]; simplify_eq/=.
  all: eexists _, _, _, _; split; [reflexivity|]; simpl.
  all: rewrite ?app_nil_r, ?fmap_app; simpl; rewrite ?app_nil_r.
  all: try done.
  all: try (by rewrite Hserved).
  all: try (by eexists).
Qed.

Lemma served_inv_run q p cars pumpId sched W :
  run sched (start q p [Producer cars C_arrived; Pump pumpId (P_removeCar R_full_acquire)])
  = Some W ->
  served_inv W.
Proof.
  intros Hrun.
  eapply (run_invariant served_inv); [| |exact Hrun].
  - intros ? ? ? ? ? ?. by eapply served_inv_step.
  - exists cars, C_arrived, pumpId, (P_removeCar R_full_acquire). done.
Qed.

(** X12: with one producer that passes [cars] to [addCar] in order and
    one pump, the cars are reported as serviced in that same order: the
    names in the "finishes service" messages so far are the names of the
    first of [cars]. *)
Theorem serviced_in_arrival_order (N : Z) (q : SharedQueue) (p : Semaphore)
  (cars : list Car) (pumpId : Z) (sched : list (nat * bool)) (W : Station) :
  SharedQueue_new N = Returns q ->
  N <= INT_MAX ->
  run sched
    (start q p [Producer cars C_arrived; Pump pumpId (P_removeCar R_full_acquire)])
  = Some W ->
  exists rest, carName <$> cars = finishes (trace W) ++ rest.
Proof.
  intros Hq HN Hrun.
  destruct (spsc_inv_run N q p cars pumpId sched W HN Hq Hrun)
    as (todo & cpc & id & ppc & Hths & Hpush & Hret).
  destruct (served_inv_run q p cars pumpId sched W Hrun)
    as (todo' & cpc' & id' & ppc' & Hths' & Hserved).
  rewrite Hths in Hths'. assert (ppc' = ppc) as -> by congruence.
  pose proof (fifo_inv_run q p _ sched W (SharedQueue_new_queue _ _ Hq) Hrun) as Hfifo.
  unfold fifo_inv in Hfifo.
  assert (exists r1, carName <$> cars = (carName <$> returns (trace W)) ++ r1)
    as [r1 Hr1].
  { exists (carName <$> (in_flight ppc ++ queue (squeue W) ++ to_push todo cpc)).
    rewrite <- fmap_app. f_equal.
    rewrite <- Hpush, Hfifo, <- Hret. by rewrite <- !app_assoc. }
  assert (exists r2, carName <$> returns (trace W) = finishes (trace W) ++ r2)
    as [r2 Hr2].
  { destruct ppc as [[]| | | | | | | |]; try (by exists []; rewrite app_nil_r);
      try (by eexists).
    all: destruct Hserved as [name Hname]; by eexists. }
  exists (r2 ++ r1). by rewrite Hr1, Hr2, <- app_assoc.
Qed.

(** ** The semaphore: permits are conserved *)

Lemma sem_conservation (ops : list sem_op) (s0 : Semaphore) :
  0 <= slots s0 <= INT_MAX ->
  Forall release_in_range (sem_history s0 ops) ->
  slots (sem_run s0 ops)
  = slots s0 - acquired (sem_history s0 ops) + released (sem_history s0 ops).
Proof.
  revert s0. induction ops as [|op ops IH]; intros s0 Hs0 Hr; simpl in *; [lia|].
  apply Forall_cons in Hr as [Hop Hr].
  destruct op; unfold sem_call in *; simpl in Hop.
  - destruct (acquire s0) as [s'| |e] eqn:Ha; simpl in *.
    + destruct (acquire_spec _ _ Hs0 Ha). rewrite IH by (done || lia). lia.
    + rewrite IH by done. lia.
    + unfold acquire in Ha. by destruct (0 <? slots s0).
  - rewrite release_spec in * by lia. simpl in *.
    rewrite IH by (done || simpl; lia). simpl. lia.
Qed.

(** X13: permits are conserved.  Over any sequence of calls in which the
    count is below [INT_MAX] whenever [release] is called, what
    [availablePermits()] returns in the end is the initial count, less
    one for every [acquire] that returned, plus one for every
    [release]. *)
Theorem permits_are_conserved (initial : Z) (s0 : Semaphore) (ops : list sem_op) :
  Semaphore_new initial = Returns s0 ->
  initial <= INT_MAX ->
  Forall release_in_range (sem_history s0 ops) ->
  availablePermits (sem_run s0 ops)
  = Returns (initial - acquired (sem_history s0 ops)
             + released (sem_history s0 ops), sem_run s0 ops).
Proof.
  unfold Semaphore_new. intros Hnew Hmax Hr.
  destruct (Z.ltb_spec initial 0); [done|]. simplify_eq.
  unfold availablePermits. rewrite sem_conservation; simpl; [done|lia|done].
Qed.

Lemma acquire_repeat (k : nat) (n : nat) :
  Z.of_nat n <= INT_MAX ->
  sem_run (mkSemaphore (Z.of_nat n)) (replicate k OpAcquire)
  = mkSemaphore (Z.of_nat (n - k)) /\
  acquired (sem_history (mkSemaphore (Z.of_nat n)) (replicate k OpAcquire))
  = Z.of_nat (n `min` k).
Proof.
  revert n. induction k as [|k IH]; intros n Hn; simpl.
  - split; [by rewrite Nat.sub_0_r|lia].
  - unfold acquire. simpl. destruct n as [|n].
    + simpl. destruct (IH 0%nat Hn) as [H1 H2]. simpl in *. by rewrite H1, H2.
    + destruct (Z.ltb_spec 0 (Z.of_nat (S n))); [|lia]. simpl.
      rewrite int_wrap_id by (unfold INT_MIN, INT_MAX in *; lia).
      replace (Z.of_nat (S n) - 1) with (Z.of_nat n) by lia.
      destruct (IH n) as [H1 H2]; [lia|]. rewrite H1, H2. split; [done|lia].
Qed.

(** X14: a semaphore built with [n] permits lets exactly [n] calls of
    [acquire] return; every further call waits and leaves the count at
    0. *)
Theorem acquire_returns_once_per_permit (n k : nat) (s0 : Semaphore) :
  Semaphore_new (Z.of_nat n) = Returns s0 ->
  Z.of_nat n <= INT_MAX ->
  slots (sem_run s0 (replicate k OpAcquire)) = Z.of_nat (n - k) /\
  acquired (sem_history s0 (replicate k OpAcquire)) = Z.of_nat (n `min` k) /\
  (n <= k -> acquire (sem_run s0 (replicate k OpAcquire)) = Waits)%nat.
Proof.
  unfold Semaphore_new. intros Hnew Hmax.
  destruct (Z.ltb_spec (Z.of_nat n) 0); [lia|]. simplify_eq.
  destruct (acquire_repeat k n Hmax) as [H1 H2]. rewrite H1, H2.
  split; [done|]. split; [done|]. intros Hle. unfold acquire. simpl.
  by replace (n - k)%nat with 0%nat by lia.
Qed.

(** ** The input loop of [main] *)

Lemma failed_stream_loops (fuel : nat) (s : cin) (q : Z) :
  failbit s = true -> (q <? 1) || (q >? 10) = true ->
  input_loop fuel s q = None.
Proof.
  intros Hf Hq. induction fuel as [|fuel IH]; simpl; [done|].
  unfold extract. rewrite Hf. simpl. by rewrite Hq.
Qed.

Lemma outside_1_10 (z : Z) :
  ((z <? 1) || (z >? 10) = true /\ (z < 1 \/ 10 < z)) \/
  ((z <? 1) || (z >? 10) = false /\ 1 <= z <= 10).
Proof.
  destruct (Z.ltb_spec z 1); simpl; [left; split; [done|lia]|].
  destruct (Z.gtb_spec z 10);
    [left; split; [done|lia]|right; split; [done|lia]].
Qed.

Lemma input_loop_accepted (input : list token) (q0 n : Z) :
  (q0 <? 1) || (q0 >? 10) = true ->
  (exists fuel s, input_loop fuel (mkCin false input) q0 = Some (n, s)) <->
  accepted input = Some n.
Proof.
  revert q0. induction input as [|t input IH]; intros q0 Hq0.
  - split; [|done]. intros ([|fuel] & s & H); simpl in H; [done|].
    rewrite Hq0 in H. by rewrite failed_stream_loops in H.
  - destruct t as [z|].
    + simpl accepted.
      destruct (Z.ltb_spec z INT_MIN) as [Hlo|Hlo]; simpl.
      { split; [|done]. intros ([|fuel] & s & H); simpl in H; [done|].
        unfold extract in H. simpl in H.
        destruct (Z.ltb_spec z INT_MIN); [|lia]. simpl in H.
        by rewrite failed_stream_loops in H. }
      destruct (Z.ltb_spec INT_MAX z) as [Hhi|Hhi]; simpl.
      { split; [|done]. intros ([|fuel] & s & H); simpl in H; [done|].
        unfold extract in H. simpl in H.
        destruct (Z.ltb_spec z INT_MIN); [lia|].
        destruct (Z.ltb_spec INT_MAX z); [|lia]. simpl in H.
        by rewrite failed_stream_loops in H. }
      assert (extract (mkCin false (TNumber z :: input)) q0
              = (mkCin false input, z)) as Hex.
      { unfold extract. simpl.
        destruct (Z.ltb_spec z INT_MIN); [lia|].
        by destruct (Z.ltb_spec INT_MAX z); [lia|]. }
      destruct ((z <? 1) || (z >? 10)) eqn:Hout.
      * rewrite <- (IH z Hout). split.
        -- intros ([|fuel] & s & H); simpl in H; [done|].
           rewrite Hex in H. simpl in H. rewrite Hout in H. eauto.
        -- intros (fuel & s & H). exists (S fuel), s. simpl.
           rewrite Hex. simpl. by rewrite Hout.
      * split.
        -- intros ([|fuel] & s & H); simpl in H; [done|].
           rewrite Hex in H. simpl in H. rewrite Hout in H. by simplify_eq.
        -- intros [= <-]. exists 1%nat, (mkCin false input). simpl.
           rewrite Hex. simpl. by rewrite Hout.
    + split; [|done]. intros ([|fuel] & s & H); simpl in H; [done|].
      by rewrite failed_stream_loops in H.
Qed.

(** The first extraction from an input that is not empty overwrites
    [queueSize]: what the variable held before does not matter. *)
Lemma input_loop_overwrites (fuel : nat) (t : token) (input : list token) (q0 q1 : Z) :
  input_loop fuel (mkCin false (t :: input)) q0
  = input_loop fuel (mkCin false (t :: input)) q1.
Proof. destruct fuel as [|fuel]; [done|]. by destruct t. Qed.

Lemma input_loop_ends (input : list token) (q0 n : Z) :
  (exists fuel s, input_loop fuel (mkCin false input) q0 = Some (n, s)) <->
  accepted input = Some n \/ (input = [] /\ n = q0 /\ 1 <= q0 <= 10).
Proof.
  destruct input as [|t input].
  - destruct (outside_1_10 q0) as [[Hb Hq]|[Hb Hq]].
    + rewrite input_loop_accepted by done. split; [by left|].
      intros [H|(_ & _ & H)]; [done|lia].
    + split.
      * intros ([|fuel] & s & H); simpl in H; [done|].
        rewrite Hb in H. simplify_eq. by right.
      * intros [H|(_ & -> & _)]; [done|].
        exists 1%nat, (mkCin true []). simpl. by rewrite Hb.
  - split.
    + intros (fuel & s & H). left.
      rewrite (input_loop_overwrites _ _ _ _ 0) in H.
      apply (input_loop_accepted (t :: input) 0 n); [done|eauto].
    + intros [H|(? & _)]; [|done].
      apply (input_loop_accepted (t :: input) 0 n) in H as (fuel & s & H); [|done].
      exists fuel, s. by rewrite (input_loop_overwrites _ _ _ _ 0).
Qed.

Lemma accepted_Some (input : list token) (n : Z) :
  accepted input = Some n <->
  exists before later,
    input = (TNumber <$> before) ++ TNumber n :: later /\
    Forall (fun z => INT_MIN <= z <= INT_MAX /\ (z < 1 \/ 10 < z)) before /\
    1 <= n <= 10.
Proof.
  induction input as [|t input IH].
  - split; [done|]. intros (before & later & H & _). by destruct before.
  - destruct t as [z|]; simpl.
    + destruct (Z.ltb_spec z INT_MIN) as [Hlo|Hlo]; simpl.
      { split; [done|]. intros (before & later & Heq & Hb & Hn).
        destruct before as [|b before]; simplify_eq/=.
        - unfold INT_MIN in *. lia.
        - apply Forall_cons in Hb as [Hb _]. lia. }
      destruct (Z.ltb_spec INT_MAX z) as [Hhi|Hhi]; simpl.
      { split; [done|]. intros (before & later & Heq & Hb & Hn).
        destruct before as [|b before]; simplify_eq/=.
        - unfold INT_MAX in *. lia.
        - apply Forall_cons in Hb as [Hb _]. lia. }
      destruct (outside_1_10 z) as [[-> Hz]|[-> Hz]].
      * rewrite IH. split.
        -- intros (before & later & -> & Hb & Hn).
           exists (z :: before), later. split; [done|].
           split; [constructor; [lia|done]|done].
        -- intros (before & later & Heq & Hb & Hn).
           destruct before as [|b before]; simplify_eq/=; [lia|].
           apply Forall_cons in Hb as [_ Hb]. by exists before, later.
      * split.
        -- intros [= <-]. exists [], input. split; [done|].
           split; [constructor|done].
        -- intros (before & later & Heq & Hb & Hn).
           destruct before as [|b before]; simplify_eq/=; [done|].
           apply Forall_cons in Hb as [Hb _]. lia.
    + split; [done|]. intros (before & later & Heq & _).
      by destruct before.
Qed.

Lemma accepted_ints (zs : list Z) :
  Forall (fun z => INT_MIN <= z <= INT_MAX) zs ->
  accepted (TNumber <$> zs) = read_queueSize zs.
Proof.
  induction zs as [|z zs IH]; [done|]. intros [Hz Hzs]%Forall_cons.
  rewrite fmap_cons. simpl.
  destruct (Z.ltb_spec z INT_MIN); [lia|].
  destruct (Z.ltb_spec INT_MAX z); [lia|]. simpl.
  by rewrite IH.
Qed.

(** X15: the loop at lines 168-171 on the input stream, entered with
    [queueSize] holding [q0].  The loop ends with [n] exactly when [n] is
    a number in 1..10 and everything before it in the input is a number
    that fits an [int] and lies outside 1..10; or when the input is empty
    and the variable happened to hold [n] in 1..10.  In every other case
    (a number outside [int], text that is no number, or the end of the
    input comes first) the stream fails and the loop never ends.  On an
    input of numbers that all fit an [int], not empty unless [q0] is
    outside 1..10, the loop ends with what [read_queueSize] returns. *)
Theorem input_loop_takes_first_valid (input : list token) (q0 n : Z) :
  ((exists fuel s, input_loop fuel (mkCin false input) q0 = Some (n, s)) <->
   (exists before later,
      input = (TNumber <$> before) ++ TNumber n :: later /\
      Forall (fun z => INT_MIN <= z <= INT_MAX /\ (z < 1 \/ 10 < z)) before /\
      1 <= n <= 10) \/
   (input = [] /\ n = q0 /\ 1 <= q0 <= 10)) /\
  ((forall fuel, input_loop fuel (mkCin false input) q0 = None) <->
   (forall m, ~ exists before later,
      input = (TNumber <$> before) ++ TNumber m :: later /\
      Forall (fun z => INT_MIN <= z <= INT_MAX /\ (z < 1 \/ 10 < z)) before /\
      1 <= m <= 10) /\
   ~ (input = [] /\ 1 <= q0 <= 10)) /\
  (forall zs,
     input = TNumber <$> zs ->
     Forall (fun z => INT_MIN <= z <= INT_MAX) zs ->
     zs <> [] \/ q0 < 1 \/ 10 < q0 ->
     (read_queueSize zs = Some n <->
      exists fuel s, input_loop fuel (mkCin false input) q0 = Some (n, s))).
Proof.
  split; [|split].
  - rewrite input_loop_ends. by rewrite accepted_Some.
  - split.
    + intros Hloop. split.
      * intros m Hm. apply accepted_Some in Hm.
        destruct (proj2 (input_loop_ends input q0 m) (or_introl Hm))
          as (fuel & s & H).
        by rewrite Hloop in H.
      * intros [-> Hq].
        destruct (proj2 (input_loop_ends [] q0 q0))
          as (fuel & s & H); [by right|].
        by rewrite Hloop in H.
    + intros [Hnone Hq] fuel.
      destruct (input_loop fuel (mkCin false input) q0) as [[m s]|] eqn:H; [|done].
      exfalso.
      destruct (proj1 (input_loop_ends input q0 m)) as [Hm|(-> & _ & Hm)]; [eauto|..].
      * apply (Hnone m). by apply accepted_Some.
      * by apply Hq.
  - intros zs -> Hzs Hne. rewrite input_loop_ends, accepted_ints by done.
    split; [by left|]. intros [H|(Hnil & _ & Hq)]; [done|].
    destruct Hne as [Hne|Hne]; [|lia].
    by destruct zs.
Qed.

Lemma input_loop_takes_first_valid_witness :
  [TNumber 0; TNumber 11; TNumber 3; TNumber 7] = TNumber <$> [0; 11; 3; 7] /\
  Forall (fun z => INT_MIN <= z <= INT_MAX) [0; 11; 3; 7] /\
  ([0; 11; 3; 7] <> [] \/ 5 < 1 \/ 10 < 5) /\
  read_queueSize [0; 11; 3; 7] = Some 3 /\
  exists fuel s,
    input_loop fuel (mkCin false [TNumber 0; TNumber 11; TNumber 3; TNumber 7]) 5
    = Some (3, s).
Proof.
  assert ([TNumber 0; TNumber 11; TNumber 3; TNumber 7]
          = TNumber <$> [0; 11; 3; 7]) as H1 by reflexivity.
  assert (Forall (fun z => INT_MIN <= z <= INT_MAX) [0; 11; 3; 7]) as H2
    by (repeat constructor; unfold INT_MIN, INT_MAX; lia).
  assert ([0; 11; 3; 7] <> [] \/ 5 < 1 \/ 10 < 5) as H0 by (by left).
  assert (read_queueSize [0; 11; 3; 7] = Some 3) as H3 by reflexivity.
  destruct (input_loop_takes_first_valid
              [TNumber 0; TNumber 11; TNumber 3; TNumber 7] 5 3) as (_ & _ & H4).
  exact (conj H1 (conj H2 (conj H0 (conj H3 (proj1 (H4 _ H1 H2 H0) H3))))).
Defined.

(** On the input "99999999999 5 1 0" the first number is outside [int]:
    the stream fails and the loop never ends, although 5 follows. *)
Lemma input_loop_never_ends_after_overflow (fuel : nat) (q0 : Z) :
  input_loop fuel
    (mkCin false [TNumber 99999999999; TNumber 5; TNumber 1; TNumber 0]) q0
  = None.
Proof.
  destruct fuel as [|fuel]; [done|]. simpl.
  by rewrite failed_stream_loops.
Qed.

(** ** The station [main] builds *)

Lemma tsum_app (f : thread -> Z) (l1 l2 : list thread) :
  tsum f (l1 ++ l2) = tsum f l1 + tsum f l2.
Proof. induction l1 as [|t l1 IH]; simpl; lia. Qed.

Lemma tsum_fmap_const {A : Type} (f : thread -> Z) (g : A -> thread) (c : Z)
  (l : list A) :
  (forall x, f (g x) = c) -> tsum f (g <$> l) = c * Z.of_nat (length l).
Proof.
  intros Hc. induction l as [|x l IH]; [simpl; lia|].
  rewrite fmap_cons.
  change (tsum f (g x :: (g <$> l))) with (f (g x) + tsum f (g <$> l)).
  rewrite Hc, IH. simpl length. lia.
Qed.

Lemma forallb_fmap_const {A : Type} (f : thread -> bool) (g : A -> thread)
  (l : list A) :
  (forall x, f (g x) = true) -> forallb f (g <$> l) = true.
Proof.
  intros Hc. induction l as [|x l IH]; [done|].
  rewrite fmap_cons.
  change (forallb f (g x :: (g <$> l))) with (f (g x) && forallb f (g <$> l)).
  by rewrite Hc, IH.
Qed.

Lemma main_threads_fresh (pumpCount maxCars : Z) :
  forallb fresh (pump_threads pumpCount ++ car_threads maxCars) = true.
Proof.
  rewrite forallb_app. unfold pump_threads, car_threads.
  by rewrite !forallb_fmap_const.
Qed.

Lemma main_threads_generated (pumpCount maxCars : Z) :
  generated (pump_threads pumpCount ++ car_threads maxCars) = Z.max 0 maxCars.
Proof.
  unfold generated, pump_threads, car_threads. rewrite tsum_app.
  rewrite (tsum_fmap_const _ _ 0) by done.
  rewrite (tsum_fmap_const _ _ 1) by done.
  rewrite !length_seqZ. lia.
Qed.

Lemma main_threads_pumps (pumpCount maxCars : Z) :
  tsum is_pump (pump_threads pumpCount ++ car_threads maxCars) = Z.max 0 pumpCount.
Proof.
  unfold pump_threads, car_threads. rewrite tsum_app.
  rewrite (tsum_fmap_const _ _ 1) by done.
  rewrite (tsum_fmap_const _ _ 0) by done.
  rewrite !length_seqZ. lia.
Qed.

(** X16: the station of [main].  With a queue size accepted by the input
    loop, [main] fails with [std::invalid_argument] before it starts any
    thread when [pumpCount] is negative; otherwise it starts
    [pumpCount] pumps and one car thread for each of [maxCars] cars
    ([maxCars] below [INT_MAX], so that the loop counter stays an [int]), and
    however those threads interleave, at most 10 cars are in the FIFO, at
    most [pumpCount] pumps hold a bay, at most [maxCars] cars are
    reported as serviced, and the threads take at most 21 steps for each
    car. *)
Theorem main_station_bounds (input : list Z) (queueSize pumpCount maxCars : Z) :
  read_queueSize input = Some queueSize ->
  pumpCount <= INT_MAX ->
  maxCars < INT_MAX ->
  (pumpCount < 0 ->
   main_station queueSize pumpCount maxCars
   = Throws (invalid_argument "Initial slots cannot be negative")) /\
  (0 <= pumpCount ->
   exists W0,
     main_station queueSize pumpCount maxCars = Returns W0 /\
     tsum is_pump (threads W0) = pumpCount /\
     generated (threads W0) = Z.max 0 maxCars /\
     forall sched W,
       run sched W0 = Some W ->
       0 <= size W <= 10 /\
       0 <= tsum in_bay (threads W) <= pumpCount /\
       0 <= serviced W <= Z.max 0 maxCars /\
       Z.of_nat (length sched) <= 21 * Z.max 0 maxCars).
Proof.
  intros Hread HP _. apply read_queueSize_range in Hread.
  unfold main_station, Semaphore_new. split.
  - intros Hneg. by destruct (Z.ltb_spec pumpCount 0); [|lia].
  - intros Hpos. destruct (Z.ltb_spec pumpCount 0); [lia|]. simpl.
    assert (SharedQueue_new queueSize
            = Returns (mkSharedQueue [] (mkSemaphore queueSize) (mkSemaphore 0)
                         (mkSemaphore 1))) as Hq.
    { unfold SharedQueue_new, Semaphore_new.
      by destruct (Z.ltb_spec queueSize 0); [lia|]. }
    rewrite Hq. simpl. eexists. split; [reflexivity|]. simpl.
    split; [rewrite main_threads_pumps; lia|].
    split; [apply main_threads_generated|].
    intros sched W Hrun.
    pose proof (main_threads_fresh pumpCount maxCars) as Hf.
    assert (queueSize <= INT_MAX) as HN by (unfold INT_MAX; lia).
    assert (Semaphore_new pumpCount = Returns (mkSemaphore pumpCount)) as Hp.
    { unfold Semaphore_new. by destruct (Z.ltb_spec pumpCount 0); [lia|]. }
    destruct (queue_inv_run _ _ _ _ _ _ HN Hq Hf Hrun) as [_ _ Hsl He0 Hf0 Hsz _].
    destruct (bay_inv_run _ _ _ _ _ _ HP Hp Hf Hrun) as [Hb Hb0].
    pose proof (car_accounting _ _ _ _ _ (SharedQueue_new_queue _ _ Hq) Hf Hrun)
      as Hacc.
    pose proof (run_work_bound _ _ _ _ _ _ Hq HN Hf Hrun) as (_ & _ & Hbound).
    rewrite main_threads_generated in Hacc, Hbound.
    pose proof (tsum_nonneg _ in_bay_nonneg (threads W)).
    pose proof (tsum_nonneg _ unpushed_nonneg (threads W)).
    pose proof (tsum_nonneg _ unserved_nonneg (threads W)).
    pose proof (tsum_nonneg _ pushed_unsignalled_nonneg (threads W)).
    pose proof (tsum_nonneg _ taken_unpopped_nonneg (threads W)).
    pose proof (tsum_nonneg _ holds_empty_nonneg (threads W)).
    pose proof (tsum_nonneg _ holds_full_nonneg (threads W)).
    pose proof (tsum_le _ _ (threads W) pushed_le_holds).
    pose proof (tsum_le _ _ (threads W) unpopped_le_holds).
    unfold serviced, size in *. lia.
Qed.

(** ** The further properties at concrete stations *)

Lemma demo_hyps :
  SharedQueue_new 2 = Returns queue2 /\
  Semaphore_new 1 = Returns pumps1 /\
  2 <= INT_MAX /\ 1 <= INT_MAX /\
  forallb fresh one_car_one_pump = true.
Proof. repeat split; vm_compute; congruence. Qed.

Lemma no_car_lost_or_overtaken_witness :
  SharedQueue_new 2 = Returns queue2 /\
  2 <= INT_MAX /\
  forallb fresh one_car_one_pump = true /\
  run (solo 0 7 ++ solo 1 10) (start queue2 pumps1 one_car_one_pump)
  = Some demo_in_service /\
  pushes (trace demo_in_service)
  = pops (trace demo_in_service) ++ queue (squeue demo_in_service).
Proof.
  destruct demo_hyps as (H1 & _ & H2 & _ & H3).
  assert (run (solo 0 7 ++ solo 1 10) (start queue2 pumps1 one_car_one_pump)
          = Some demo_in_service) as H4 by (vm_compute; reflexivity).
  pose proof (no_car_lost_or_overtaken 2 _ _ _ _ _ H1 H2 H3 H4) as [H5 _].
  exact (conj H1 (conj H2 (conj H3 (conj H4 H5)))).
Defined.

Lemma mutual_exclusion_witness :
  SharedQueue_new 2 = Returns queue2 /\
  2 <= INT_MAX /\
  forallb fresh one_car_one_pump = true /\
  run (solo 0 4) (start queue2 pumps1 one_car_one_pump)
  = Some (after demo (solo 0 4)) /\
  0%nat <> 1%nat /\
  threads (after demo (solo 0 4)) !! 0%nat
  = Some (Producer [] (C_addCar car1 A_print)) /\
  threads (after demo (solo 0 4)) !! 1%nat
  = Some (Pump 1 (P_removeCar R_full_acquire)) /\
  (in_crit (Producer [] (C_addCar car1 A_print)) = 0 \/
   in_crit (Pump 1 (P_removeCar R_full_acquire)) = 0).
Proof.
  destruct demo_hyps as (H1 & _ & H2 & _ & H3).
  assert (run (solo 0 4) (start queue2 pumps1 one_car_one_pump)
          = Some (after demo (solo 0 4))) as H4 by (vm_compute; reflexivity).
  assert (0%nat <> 1%nat) as H5 by lia.
  assert (threads (after demo (solo 0 4)) !! 0%nat
          = Some (Producer [] (C_addCar car1 A_print))) as H6
    by (vm_compute; reflexivity).
  assert (threads (after demo (solo 0 4)) !! 1%nat
          = Some (Pump 1 (P_removeCar R_full_acquire))) as H7
    by (vm_compute; reflexivity).
  pose proof (mutual_exclusion 2 _ _ _ _ _ _ _ _ _ H1 H2 H3 H4 H5 H6 H7) as H8.
  exact (conj H1 (conj H2 (conj H3 (conj H4 (conj H5 (conj H6 (conj H7 H8))))))).
Defined.

Lemma bays_never_oversubscribed_witness :
  Semaphore_new 1 = Returns pumps1 /\
  1 <= INT_MAX /\
  forallb fresh one_car_one_pump = true /\
  run (solo 0 7 ++ solo 1 10) (start queue2 pumps1 one_car_one_pump)
  = Some demo_in_service /\
  tsum in_bay (threads demo_in_service) + slots (pumps demo_in_service) = 1.
Proof.
  destruct demo_hyps as (_ & H1 & _ & H2 & H3).
  assert (run (solo 0 7 ++ solo 1 10) (start queue2 pumps1 one_car_one_pump)
          = Some demo_in_service) as H4 by (vm_compute; reflexivity).
  pose proof (bays_never_oversubscribed 1 _ _ _ _ _ H1 H2 H3 H4) as [H5 _].
  exact (conj H1 (conj H2 (conj H3 (conj H4 H5)))).
Defined.

Lemma full_queue_blocks_addCar_empty_queue_blocks_removeCar_witness :
  SharedQueue_new 2 = Returns queue2 /\
  2 <= INT_MAX /\
  forallb fresh one_car_one_pump = true /\
  run [] (start queue2 pumps1 one_car_one_pump) = Some demo /\
  size demo = 0 /\
  threads demo !! 1%nat = Some (Pump 1 (P_removeCar R_full_acquire)) /\
  step demo 1 false = None.
Proof.
  destruct demo_hyps as (H1 & _ & H2 & _ & H3).
  assert (run [] (start queue2 pumps1 one_car_one_pump) = Some demo) as H4
    by reflexivity.
  assert (size demo = 0) as H5 by reflexivity.
  assert (threads demo !! 1%nat = Some (Pump 1 (P_removeCar R_full_acquire)))
    as H6 by reflexivity.
  pose proof (full_queue_blocks_addCar_empty_queue_blocks_removeCar
                2 _ _ _ _ _ 1%nat false H1 H2 H3 H4) as [_ H7].
  destruct (H7 H5) as [_ H8].
  exact (conj H1 (conj H2 (conj H3 (conj H4 (conj H5 (conj H6 (H8 1 H6))))))).
Defined.

Lemma cars_are_conserved_witness :
  SharedQueue_new 2 = Returns queue2 /\
  forallb fresh one_car_one_pump = true /\
  run (solo 0 7 ++ solo 1 10) (start queue2 pumps1 one_car_one_pump)
  = Some demo_in_service /\
  0 <= serviced demo_in_service <= generated one_car_one_pump.
Proof.
  destruct demo_hyps as (H1 & _ & _ & _ & H3).
  assert (run (solo 0 7 ++ solo 1 10) (start queue2 pumps1 one_car_one_pump)
          = Some demo_in_service) as H4 by (vm_compute; reflexivity).
  pose proof (cars_are_conserved 2 _ _ _ _ _ H1 H3 H4) as [_ H5].
  exact (conj H1 (conj H3 (conj H4 H5))).
Defined.

Lemma printed_sizes_in_range_witness :
  SharedQueue_new 2 = Returns queue2 /\
  2 <= INT_MAX /\
  forallb fresh one_car_one_pump = true /\
  run (solo 0 7 ++ solo 1 10) (start queue2 pumps1 one_car_one_pump)
  = Some demo_in_service /\
  Forall (printed_size_ok 2) (trace demo_in_service).
Proof.
  destruct demo_hyps as (H1 & _ & H2 & _ & H3).
  assert (run (solo 0 7 ++ solo 1 10) (start queue2 pumps1 one_car_one_pump)
          = Some demo_in_service) as H4 by (vm_compute; reflexivity).
  pose proof (printed_sizes_in_range 2 _ _ _ _ _ H1 H2 H3 H4) as H5.
  exact (conj H1 (conj H2 (conj H3 (conj H4 H5)))).
Defined.

Lemma waiting_count_only_falls_after_join_witness :
  SharedQueue_new 2 = Returns queue2 /\
  2 <= INT_MAX /\
  forallb fresh one_car_one_pump = true /\
  run (solo 0 7) (start queue2 pumps1 one_car_one_pump) = Some demo_queued /\
  arrivals_joined demo_queued = true /\
  run (solo 1 1) demo_queued = Some (after demo_queued (solo 1 1)) /\
  0 <= slots (full (squeue (after demo_queued (solo 1 1))))
    <= slots (full (squeue demo_queued)).
Proof.
  destruct demo_hyps as (H1 & _ & H2 & _ & H3).
  assert (run (solo 0 7) (start queue2 pumps1 one_car_one_pump) = Some demo_queued)
    as H4 by (vm_compute; reflexivity).
  assert (arrivals_joined demo_queued = true) as H5 by (vm_compute; reflexivity).
  assert (run (solo 1 1) demo_queued = Some (after demo_queued (solo 1 1)))
    as H6 by (vm_compute; reflexivity).
  pose proof (waiting_count_only_falls_after_join 2 _ _ _ _ _ _ _ H1 H2 H3 H4 H5 H6)
    as [_ H7].
  exact (conj H1 (conj H2 (conj H3 (conj H4 (conj H5 (conj H6 H7)))))).
Defined.

Lemma favourable_pass_guarantee_witness :
  SharedQueue_new 2 = Returns queue2 /\
  Semaphore_new 1 = Returns pumps1 /\
  2 <= INT_MAX /\ 1 <= INT_MAX /\
  forallb fresh one_car_one_pump = true /\
  run (solo 0 7 ++ solo 1 1) (start queue2 pumps1 one_car_one_pump)
  = Some (after demo (solo 0 7 ++ solo 1 1)) /\
  arrivals_joined (after demo (solo 0 7 ++ solo 1 1)) = true /\
  run (solo 1 13) (after demo (solo 0 7 ++ solo 1 1)) = Some demo_done /\
  monitor_sample 1 (after demo (solo 0 7 ++ solo 1 1)) demo_done = true /\
  generated one_car_one_pump
  = serviced demo_done + tsum in_transit (threads demo_done).
Proof.
  destruct demo_hyps as (H1 & H2 & H3 & H4 & H5).
  assert (run (solo 0 7 ++ solo 1 1) (start queue2 pumps1 one_car_one_pump)
          = Some (after demo (solo 0 7 ++ solo 1 1))) as H6
    by (vm_compute; reflexivity).
  assert (arrivals_joined (after demo (solo 0 7 ++ solo 1 1)) = true) as H7
    by (vm_compute; reflexivity).
  assert (run (solo 1 13) (after demo (solo 0 7 ++ solo 1 1)) = Some demo_done)
    as H8 by (vm_compute; reflexivity).
  assert (monitor_sample 1 (after demo (solo 0 7 ++ solo 1 1)) demo_done = true)
    as H9 by (vm_compute; reflexivity).
  pose proof (favourable_pass_guarantee 2 1 _ _ _ _ _ _ _
                H1 H2 H3 H4 H5 H6 H7 H8 H9) as (_ & _ & H10).
  exact (conj H1 (conj H2 (conj H3 (conj H4 (conj H5 (conj H6 (conj H7
           (conj H8 (conj H9 H10))))))))).
Defined.

Lemma interrupted_pump_prevents_drain_witness :
  Semaphore_new 1 = Returns pumps1 /\
  1 <= INT_MAX /\
  forallb fresh one_car_one_pump = true /\
  run (solo 0 7 ++ solo 1 10 ++ [(1%nat, true)])
    (start queue2 pumps1 one_car_one_pump) = Some demo_interrupted /\
  threads demo_interrupted !! 1%nat = Some (Pump 1 P_catch) /\
  interrupted (Pump 1 P_catch) = 1 /\
  run (solo 1 1) demo_interrupted = Some (after demo_interrupted (solo 1 1)) /\
  drained 1 (after demo_interrupted (solo 1 1)) = false.
Proof.
  destruct demo_hyps as (_ & H1 & _ & H2 & H3).
  assert (run (solo 0 7 ++ solo 1 10 ++ [(1%nat, true)])
            (start queue2 pumps1 one_car_one_pump) = Some demo_interrupted)
    as H4 by (vm_compute; reflexivity).
  assert (threads demo_interrupted !! 1%nat = Some (Pump 1 P_catch)) as H5
    by (vm_compute; reflexivity).
  assert (interrupted (Pump 1 P_catch) = 1) as H6 by reflexivity.
  assert (run (solo 1 1) demo_interrupted
          = Some (after demo_interrupted (solo 1 1))) as H7
    by (vm_compute; reflexivity).
  pose proof (interrupted_pump_prevents_drain 1 _ _ _ _ _ _ _ _ _
                H1 H2 H3 H4 H5 H6 H7) as [_ H8].
  exact (conj H1 (conj H2 (conj H3 (conj H4 (conj H5 (conj H6 (conj H7 H8))))))).
Defined.

Lemma every_run_is_bounded_witness :
  SharedQueue_new 2 = Returns queue2 /\
  2 <= INT_MAX /\
  forallb fresh one_car_one_pump = true /\
  run (solo 0 7 ++ solo 1 14) (start queue2 pumps1 one_car_one_pump)
  = Some demo_done /\
  Z.of_nat (length (solo 0 7 ++ solo 1 14)) <= 21 * generated one_car_one_pump.
Proof.
  destruct demo_hyps as (H1 & _ & H2 & _ & H3).
  assert (run (solo 0 7 ++ solo 1 14) (start queue2 pumps1 one_car_one_pump)
          = Some demo_done) as H4 by (vm_compute; reflexivity).
  pose proof (every_run_is_bounded 2 _ _ _ _ _ H1 H2 H3 H4) as (_ & _ & H5).
  exact (conj H1 (conj H2 (conj H3 (conj H4 H5)))).
Defined.

Lemma demo_done_stuck : stuck demo_done.
Proof.
  intros [|[|tid]] [|]; vm_compute; reflexivity.
Qed.

Lemma rest_only_when_all_cars_are_serviced_witness :
  SharedQueue_new 2 = Returns queue2 /\
  Semaphore_new 1 = Returns pumps1 /\
  1 <= 2 <= INT_MAX /\ 1 <= 1 <= INT_MAX /\
  forallb fresh one_car_one_pump = true /\
  0 < tsum is_pump one_car_one_pump /\
  run (solo 0 7 ++ solo 1 14) (start queue2 pumps1 one_car_one_pump)
  = Some demo_done /\
  tsum interrupted (threads demo_done) = 0 /\
  stuck demo_done /\
  serviced demo_done = generated one_car_one_pump.
Proof.
  destruct demo_hyps as (H1 & H2 & H3 & H4 & H5).
  assert (1 <= 2 <= INT_MAX) as H3' by lia.
  assert (1 <= 1 <= INT_MAX) as H4' by lia.
  assert (0 < tsum is_pump one_car_one_pump) as H6 by reflexivity.
  assert (run (solo 0 7 ++ solo 1 14) (start queue2 pumps1 one_car_one_pump)
          = Some demo_done) as H7 by (vm_compute; reflexivity).
  assert (tsum interrupted (threads demo_done) = 0) as H8
    by (vm_compute; reflexivity).
  pose proof demo_done_stuck as H9.
  pose proof (rest_only_when_all_cars_are_serviced 2 1 _ _ _ _ _
                H1 H2 H3' H4' H5 H6 H7 H8 H9) as (_ & _ & H10).
  exact (conj H1 (conj H2 (conj H3' (conj H4' (conj H5 (conj H6 (conj H7
           (conj H8 (conj H9 H10))))))))).
Defined.

Lemma serviced_in_arrival_order_witness :
  SharedQueue_new 2 = Returns queue2 /\
  2 <= INT_MAX /\
  run (solo 0 14 ++ solo 1 14)
    (start queue2 pumps1
       [Producer [car1; car2] C_arrived; Pump 1 (P_removeCar R_full_acquire)])
  = Some (after (start queue2 pumps1
                   [Producer [car1; car2] C_arrived;
                    Pump 1 (P_removeCar R_full_acquire)])
            (solo 0 14 ++ solo 1 14)) /\
  exists rest,
    carName <$> [car1; car2]
    = finishes (trace (after (start queue2 pumps1
                                [Producer [car1; car2] C_arrived;
                                 Pump 1 (P_removeCar R_full_acquire)])
                         (solo 0 14 ++ solo 1 14))) ++ rest.
Proof.
  destruct demo_hyps as (H1 & _ & H2 & _ & _).
  assert (run (solo 0 14 ++ solo 1 14)
            (start queue2 pumps1
               [Producer [car1; car2] C_arrived; Pump 1 (P_removeCar R_full_acquire)])
          = Some (after (start queue2 pumps1
                           [Producer [car1; car2] C_arrived;
                            Pump 1 (P_removeCar R_full_acquire)])
                    (solo 0 14 ++ solo 1 14))) as H3 by (vm_compute; reflexivity).
  pose proof (serviced_in_arrival_order 2 _ _ _ _ _ _ H1 H2 H3) as H4.
  exact (conj H1 (conj H2 (conj H3 H4))).
Defined.

Lemma permits_are_conserved_witness :
  Semaphore_new 1 = Returns pumps1 /\
  1 <= INT_MAX /\
  Forall release_in_range
    (sem_history pumps1 [OpAcquire; OpAcquire; OpRelease; OpRelease]) /\
  availablePermits (sem_run pumps1 [OpAcquire; OpAcquire; OpRelease; OpRelease])
  = Returns (1 - acquired (sem_history pumps1
                             [OpAcquire; OpAcquire; OpRelease; OpRelease])
             + released (sem_history pumps1
                           [OpAcquire; OpAcquire; OpRelease; OpRelease]),
             sem_run pumps1 [OpAcquire; OpAcquire; OpRelease; OpRelease]).
Proof.
  destruct demo_hyps as (_ & H1 & _ & H2 & _).
  assert (Forall release_in_range
            (sem_history pumps1 [OpAcquire; OpAcquire; OpRelease; OpRelease]))
    as H3 by (repeat constructor).
  pose proof (permits_are_conserved 1 _ _ H1 H2 H3) as H4.
  exact (conj H1 (conj H2 (conj H3 H4))).
Defined.

Lemma acquire_returns_once_per_permit_witness :
  Semaphore_new (Z.of_nat 2) = Returns (mkSemaphore 2) /\
  Z.of_nat 2 <= INT_MAX /\
  acquired (sem_history (mkSemaphore 2) (replicate 5 OpAcquire))
  = Z.of_nat (2 `min` 5).
Proof.
  assert (Semaphore_new (Z.of_nat 2) = Returns (mkSemaphore 2)) as H1
    by reflexivity.
  assert (Z.of_nat 2 <= INT_MAX) as H2 by (unfold INT_MAX; lia).
  pose proof (acquire_returns_once_per_permit 2 5 _ H1 H2) as (_ & H3 & _).
  exact (conj H1 (conj H2 H3)).
Defined.

Lemma main_station_bounds_witness :
  read_queueSize [0; 11; 3; 7] = Some 3 /\
  2 <= INT_MAX /\
  2 < INT_MAX /\
  exists W0,
    main_station 3 2 2 = Returns W0 /\
    tsum is_pump (threads W0) = 2 /\
    generated (threads W0) = Z.max 0 2.
Proof.
  assert (read_queueSize [0; 11; 3; 7] = Some 3) as H1 by reflexivity.
  assert (2 <= INT_MAX) as H2 by (unfold INT_MAX; lia).
  assert (2 < INT_MAX) as H3 by (unfold INT_MAX; lia).
  destruct (main_station_bounds _ 3 2 2 H1 H2 H3) as [_ H4].
  destruct H4 as (W0 & H5 & H6 & H7 & _); [lia|].
  refine (conj H1 (conj H2 (conj H3 _))). exists W0. auto.
Defined.

(** ** What the log shows of the bays, and stations without room or bays *)

Lemma starts_snoc tr tid a :
  starts (tr ++ [(tid, a)]) = starts tr ++ from_option (fun c => [c]) [] (started a).
Proof. unfold starts. rewrite omap_app. simpl. by destruct (started a). Qed.

Lemma servicing_le_in_bay t : servicing t <= in_bay t.
Proof. destruct t as [|? []]; simpl; lia. Qed.
Lemma servicing_nonneg t : 0 <= servicing t.
Proof. destruct t as [|? []]; simpl; lia. Qed.

Lemma servicing_run q p ths sched W :
  forallb fresh ths = true ->
  run sched (start q p ths) = Some W ->
  Z.of_nat (length (starts (trace W)))
  = Z.of_nat (length (finishes (trace W))) + tsum servicing (threads W).
Proof.
  intros Hf Hrun.
  eapply (run_invariant
            (fun V => Z.of_nat (length (starts (trace V)))
                      = Z.of_nat (length (finishes (trace V)))
                        + tsum servicing (threads V))); [| |exact Hrun].
  - intros V i r V' HV (t & a & t' & q' & p' & Ht & Hs & ->)%step_inv. simpl.
    rewrite starts_snoc, finishes_snoc, (tsum_insert _ _ _ _ _ Ht).
    thread_cases t Hs; simpl; rewrite ?app_nil_r, ?length_app; simpl; lia.
  - simpl. rewrite (tsum_zero_In servicing ths); [done|].
    intros t Hin. rewrite forallb_forall in Hf. apply Hf in Hin.
    by destruct t as [? [|? []]|? [[]| | | | | | | |]].
Qed.

(** X17: the log never shows more cars in service than there are bays.
    At any point the "begins service" messages printed so far exceed the
    "finishes service" messages by the number of pumps between the two,
    which is at most the bay count. *)
Theorem log_shows_at_most_all_bays_busy (B : Z) (q : SharedQueue)
  (p : Semaphore) (ths : list thread) (sched : list (nat * bool)) (W : Station) :
  Semaphore_new B = Returns p ->
  B <= INT_MAX ->
  forallb fresh ths = true ->
  run sched (start q p ths) = Some W ->
  Z.of_nat (length (starts (trace W)))
  = Z.of_nat (length (finishes (trace W))) + tsum servicing (threads W) /\
  0 <= Z.of_nat (length (starts (trace W)))
       - Z.of_nat (length (finishes (trace W))) <= B.
Proof.
  intros Hp HB Hf Hrun.
  pose proof (servicing_run q p ths sched W Hf Hrun) as Hs.
  destruct (bay_inv_run B q p ths sched W HB Hp Hf Hrun) as [Hb Hb0].
  pose proof (tsum_le _ _ (threads W) servicing_le_in_bay).
  pose proof (tsum_nonneg _ servicing_nonneg (threads W)).
  split; [done|lia].
Qed.

Lemma log_shows_at_most_all_bays_busy_witness :
  Semaphore_new 1 = Returns pumps1 /\
  1 <= INT_MAX /\
  forallb fresh one_car_one_pump = true /\
  run (solo 0 7 ++ solo 1 10) (start queue2 pumps1 one_car_one_pump)
  = Some demo_in_service /\
  0 <= Z.of_nat (length (starts (trace demo_in_service)))
       - Z.of_nat (length (finishes (trace demo_in_service))) <= 1.
Proof.
  destruct demo_hyps as (_ & H1 & _ & H2 & H3).
  assert (run (solo 0 7 ++ solo 1 10) (start queue2 pumps1 one_car_one_pump)
          = Some demo_in_service) as H4 by (vm_compute; reflexivity).
  pose proof (log_shows_at_most_all_bays_busy 1 _ _ _ _ _ H1 H2 H3 H4) as [_ H5].
  exact (conj H1 (conj H2 (conj H3 (conj H4 H5)))).
Defined.

Lemma no_room_step W W' tid raises :
  queue_inv 0 W -> pushes (trace W) = [] -> step W tid raises = Some W' ->
  pushes (trace W') = [].
Proof.
  intros [Hm Hm0 Hsl He0 Hf0 Hsz Hud] Hpu
    (t & a & t' & q' & p' & Ht & Hs & ->)%step_inv.
  simpl. rewrite pushes_snoc, Hpu.
  pose proof (tsum_lookup_le _ holds_empty_nonneg _ _ _ Ht).
  pose proof (tsum_nonneg _ holds_full_nonneg (threads W)).
  thread_cases t Hs; simpl in *; try done; lia.
Qed.

(** X18: a queue of capacity 0, which the constructor accepts, never
    takes a car: under any interleaving no car is pushed, the FIFO stays
    empty, a thread at the start of [addCar] cannot move, and no car is
    serviced. *)
Theorem capacity_zero_queue_takes_no_car (q : SharedQueue) (p : Semaphore)
  (ths : list thread) (sched : list (nat * bool)) (W : Station) :
  SharedQueue_new 0 = Returns q ->
  forallb fresh ths = true ->
  run sched (start q p ths) = Some W ->
  pushes (trace W) = [] /\
  queue (squeue W) = [] /\
  serviced W = 0 /\
  forall tid raises todo car,
    threads W !! tid = Some (Producer todo (C_addCar car A_empty_acquire)) ->
    step W tid raises = None.
Proof.
  intros Hq Hf Hrun.
  assert (0 <= INT_MAX) as HN by (unfold INT_MAX; lia).
  assert (queue_inv 0 W /\ pushes (trace W) = []) as [Hqi Hpu].
  { eapply (run_invariant (fun V => queue_inv 0 V /\ pushes (trace V) = []));
      [| |exact Hrun].
    - intros V i r V' [Hqv Hv] Hstep.
      split; [by eapply queue_inv_step|by eapply no_room_step].
    - split; [by apply queue_inv_start|done]. }
  pose proof (fifo_inv_run q p ths sched W (SharedQueue_new_queue _ _ Hq) Hrun)
    as Hfifo.
  unfold fifo_inv in Hfifo. rewrite Hpu in Hfifo.
  symmetry in Hfifo. apply app_eq_nil in Hfifo as [Hpops Hqueue].
  pose proof (count_inv_run q p ths sched W Hf Hrun) as [_ Hpo].
  rewrite Hpops in Hpo. simpl in Hpo.
  pose proof (tsum_nonneg _ unserved_nonneg (threads W)).
  destruct Hqi as [_ _ Hsl He0 Hf0 _ _].
  pose proof (tsum_nonneg _ holds_empty_nonneg (threads W)).
  pose proof (tsum_nonneg _ holds_full_nonneg (threads W)).
  split; [done|]. split; [done|]. split; [unfold serviced; lia|].
  intros tid raises todo car Ht. unfold step. rewrite Ht. simpl.
  unfold acquire. by replace (slots (empty (squeue W))) with 0 by lia.
Qed.

Lemma capacity_zero_queue_takes_no_car_witness :
  SharedQueue_new 0
  = Returns (mkSharedQueue [] (mkSemaphore 0) (mkSemaphore 0) (mkSemaphore 1)) /\
  forallb fresh one_car_one_pump = true /\
  run (solo 0 1)
    (start (mkSharedQueue [] (mkSemaphore 0) (mkSemaphore 0) (mkSemaphore 1))
       pumps1 one_car_one_pump)
  = Some (after (start (mkSharedQueue [] (mkSemaphore 0) (mkSemaphore 0)
                          (mkSemaphore 1)) pumps1 one_car_one_pump) (solo 0 1)) /\
  pushes (trace (after (start (mkSharedQueue [] (mkSemaphore 0) (mkSemaphore 0)
                                 (mkSemaphore 1)) pumps1 one_car_one_pump)
                   (solo 0 1))) = [].
Proof.
  assert (SharedQueue_new 0
          = Returns (mkSharedQueue [] (mkSemaphore 0) (mkSemaphore 0)
                       (mkSemaphore 1))) as H1 by reflexivity.
  assert (forallb fresh one_car_one_pump = true) as H2 by reflexivity.
  assert (run (solo 0 1)
            (start (mkSharedQueue [] (mkSemaphore 0) (mkSemaphore 0) (mkSemaphore 1))
               pumps1 one_car_one_pump)
          = Some (after (start (mkSharedQueue [] (mkSemaphore 0) (mkSemaphore 0)
                                  (mkSemaphore 1)) pumps1 one_car_one_pump)
                    (solo 0 1))) as H3 by (vm_compute; reflexivity).
  pose proof (capacity_zero_queue_takes_no_car _ _ _ _ _ H1 H2 H3) as [H4 _].
  exact (conj H1 (conj H2 (conj H3 H4))).
Defined.

(** X19: a bay pool built with 0 bays, which the constructor accepts,
    never serves: under any interleaving no pump gets past
    [pumps.acquire()], no "begins service" or "finishes service" message
    is printed, and a pump that has taken a car cannot move. *)
Theorem no_bay_no_service (q : SharedQueue) (p : Semaphore)
  (ths : list thread) (sched : list (nat * bool)) (W : Station) :
  Semaphore_new 0 = Returns p ->
  forallb fresh ths = true ->
  run sched (start q p ths) = Some W ->
  starts (trace W) = [] /\
  finishes (trace W) = [] /\
  forall tid raises pumpId car,
    threads W !! tid = Some (Pump pumpId (P_pumps_acquire car)) ->
    step W tid raises = None.
Proof.
  intros Hp Hf Hrun.
  assert (0 <= INT_MAX) as HB by (unfold INT_MAX; lia).
  destruct (bay_inv_run 0 q p ths sched W HB Hp Hf Hrun) as [Hb Hb0].
  pose proof (servicing_run q p ths sched W Hf Hrun) as Hs.
  pose proof (tsum_le _ _ (threads W) servicing_le_in_bay).
  pose proof (tsum_nonneg _ servicing_nonneg (threads W)).
  pose proof (tsum_nonneg _ in_bay_nonneg (threads W)).
  assert (tsum in_bay (threads W) = 0) as Hbay by lia.
  assert (starts (trace W) = [] /\ finishes (trace W) = []) as [Hst Hfin].
  { revert Hbay. clear Hs Hb Hb0 H H0 H1.
    cut (tsum in_bay (threads W) = 0 ->
         (starts (trace W) = [] /\ finishes (trace W) = []) ); [tauto|].
    cut (bay_inv 0 W /\ starts (trace W) = [] /\ finishes (trace W) = []);
      [tauto|].
    eapply (run_invariant
              (fun V => bay_inv 0 V /\ starts (trace V) = []
                        /\ finishes (trace V) = [])); [| |exact Hrun].
    - intros V i r V' (Hbv & Hsv & Hfv) Hstep.
      split; [by eapply bay_inv_step|].
      destruct Hbv as [Hb Hb0].
      apply step_inv in Hstep as (t & a & t' & q' & p' & Ht & Hs & ->). simpl.
      rewrite starts_snoc, finishes_snoc, Hsv, Hfv.
      pose proof (tsum_lookup_le _ in_bay_nonneg _ _ _ Ht).
      pose proof (tsum_nonneg _ in_bay_nonneg (threads V)).
      thread_cases t Hs; simpl in *; try done; lia.
    - split; [|done].
      eapply (bay_inv_run 0 q p ths []); eauto. }
  split; [done|]. split; [done|].
  intros tid raises pumpId car Ht. unfold step. rewrite Ht. simpl.
  unfold acquire. by replace (slots (pumps W)) with 0 by lia.
Qed.

Lemma no_bay_no_service_witness :
  Semaphore_new 0 = Returns (mkSemaphore 0) /\
  forallb fresh one_car_one_pump = true /\
  run (solo 0 7 ++ solo 1 8) (start queue2 (mkSemaphore 0) one_car_one_pump)
  = Some (after (start queue2 (mkSemaphore 0) one_car_one_pump)
            (solo 0 7 ++ solo 1 8)) /\
  threads (after (start queue2 (mkSemaphore 0) one_car_one_pump)
             (solo 0 7 ++ solo 1 8)) !! 1%nat
  = Some (Pump 1 (P_pumps_acquire car1)) /\
  step (after (start queue2 (mkSemaphore 0) one_car_one_pump)
          (solo 0 7 ++ solo 1 8)) 1 false = None.
Proof.
  assert (Semaphore_new 0 = Returns (mkSemaphore 0)) as H1 by reflexivity.
  assert (forallb fresh one_car_one_pump = true) as H2 by reflexivity.
  assert (run (solo 0 7 ++ solo 1 8) (start queue2 (mkSemaphore 0) one_car_one_pump)
          = Some (after (start queue2 (mkSemaphore 0) one_car_one_pump)
                    (solo 0 7 ++ solo 1 8))) as H3 by (vm_compute; reflexivity).
  assert (threads (after (start queue2 (mkSemaphore 0) one_car_one_pump)
                     (solo 0 7 ++ solo 1 8)) !! 1%nat
          = Some (Pump 1 (P_pumps_acquire car1))) as H4
    by (vm_compute; reflexivity).
  pose proof (no_bay_no_service _ _ _ _ _ H1 H2 H3) as (_ & _ & H5).
  exact (conj H1 (conj H2 (conj H3 (conj H4 (H5 1%nat false 1 car1 H4))))).
Defined.
